(** * treedlib: feature templates over a document tree (get_features.py)

    A shallow embedding of [src/get_features.py].  Python objects live in a
    heap of instance dictionaries, so that the in-place mutation performed by
    [Get.__init__] and the aliasing it creates are visible; methods are
    computations in a small state-and-exception monad.  The document tree and
    its XPath engine are external to the module: they are parameters of the
    development (an abstract [tree], a [node] type that can be hashed and
    printed, and a query function that may fail).

    Conventions.  A generator is identified with the list of the values it
    yields when run to its end, so an exception raised while it is consumed
    is the outcome of the call.  Strings are byte strings.  Recursion through
    the heap ([Get.apply] on the wrapped object, [str] of an object through
    [__repr__]) is bounded by a [fuel] argument; objects whose label is not an
    object need none for printing. *)

From stdpp Require Import gmap strings list pretty.
From Stdlib Require Import ZArith Lia Ascii.

Open Scope Z_scope.

(** ** Python values, objects and the heap *)

Abbreviation loc := nat.

(** The values that the fields of a template hold: [None], a [str], an [int],
    or a reference to another template object. *)
Inductive value :=
  | VNone
  | VStr (s : string)
  | VInt (z : Z)
  | VRef (l : loc).

Inductive class := FeatureTemplate | Mention | Get | Left | Right | Between.

(** An instance: its class (for method resolution) and its [__dict__]. *)
Record obj := Obj { cls : class; attrs : gmap string value }.

Abbreviation heap := (list obj).

Inductive exn :=
  | AttributeError (name : string)
  | TypeError
  | XPathEvalError.

(** The result of running a piece of code: a value, a raised exception, or
    one of two outcomes that no Python run has (the recursion budget of the
    model is exhausted, or a reference points outside the heap). *)
Inductive outcome (A : Type) :=
  | Val (a : A)
  | Exc (e : exn)
  | Fuel
  | Dangling.
Arguments Val {A} a.
Arguments Exc {A} e.
Arguments Fuel {A}.
Arguments Dangling {A}.

(** Exceptions do not roll the heap back: the heap is returned in all cases. *)
Definition M (A : Type) : Type := heap → outcome A * heap.

Definition raise {A} (e : exn) : M A := λ h, (Exc e, h).
Definition out_of_fuel {A} : M A := λ h, (Fuel, h).

#[global] Instance M_ret : MRet M := λ A a h, (Val a, h).
#[global] Instance M_bind : MBind M := λ A B k m h,
  match m h with
  | (Val a, h') => k a h'
  | (Exc e, h') => (Exc e, h')
  | (Fuel, h') => (Fuel, h')
  | (Dangling, h') => (Dangling, h')
  end.

(** [for x in xs: yield f(x)], consumed to the end. *)
Fixpoint mapM {A B} (f : A → M B) (xs : list A) : M (list B) :=
  match xs with
  | [] => mret []
  | x :: xs' => y ← f x; ys ← mapM f xs'; mret (y :: ys)
  end.

(** Instance creation: the new object gets the next free address. *)
Definition alloc (c : class) : M loc :=
  λ h, (Val (List.length h), h ++ [Obj c ∅]).

Definition class_of (l : loc) : M class :=
  λ h, match h !! l with
       | Some o => (Val (cls o), h)
       | None => (Dangling, h)
       end.

(** [o.name]: none of the names read by the module is a class attribute, so
    the lookup is decided by the instance dictionary. *)
Definition getattr (l : loc) (name : string) : M value :=
  λ h, match h !! l with
       | Some o =>
           match attrs o !! name with
           | Some v => (Val v, h)
           | None => (Exc (AttributeError name), h)
           end
       | None => (Dangling, h)
       end.

(** [o.name = v] *)
Definition setattr (l : loc) (name : string) (v : value) : M unit :=
  λ h, match h !! l with
       | Some o => (Val (), <[l := Obj (cls o) (<[name := v]> (attrs o))]> h)
       | None => (Dangling, h)
       end.

(** ** Python primitives used by the module *)

(** [str.upper] on byte strings: ASCII letters are upper-cased, every other
    byte is kept. *)
Definition upper_ascii (c : ascii) : ascii :=
  let n := nat_of_ascii c in
  if (Nat.leb 97 n && Nat.leb n 122)%bool then ascii_of_nat (n - 32)%nat else c.

Fixpoint upper (s : string) : string :=
  match s with
  | EmptyString => EmptyString
  | String c s' => String (upper_ascii c) (upper s')
  end.

(** [sep.join(xs)] *)
Fixpoint join (sep : string) (xs : list string) : string :=
  match xs with
  | [] => EmptyString
  | [x] => x
  | x :: xs' => x +:+ sep +:+ join sep xs'
  end.

(** [range(n)] *)
Definition range (n : Z) : list Z := Z.of_nat <$> seq 0 (Z.to_nat n).

(** [x[s:e]] with Python's treatment of negative and out-of-range bounds. *)
Definition clamp_index (len i : Z) : Z :=
  if i <? 0 then Z.max 0 (i + len) else Z.min i len.

Definition slice {A} (x : list A) (s e : Z) : list A :=
  let n := Z.of_nat (List.length x) in
  let s' := clamp_index n s in
  let e' := clamp_index n e in
  take (Z.to_nat (e' - s')) (drop (Z.to_nat s') x).

(** [subsets(x, L)]:
    [chain.from_iterable([x[s:s+l+1] for s in range(len(x)-l)]
                         for l in range(min(len(x),L)))] *)
Definition subsets {A} (x : list A) (L : Z) : list (list A) :=
  let n := Z.of_nat (List.length x) in
  concat ((λ l, (λ s, slice x s (s + l + 1)) <$> range (n - l))
            <$> range (Z.min n L)).

(** [str(v)], as used by the [%s] conversions.  A template object has no
    [__str__], so [str] of a reference falls back on [__repr__], passed here
    as [rec]. *)
Definition format_s (rec : loc → M string) (v : value) : M string :=
  match v with
  | VNone => mret "None"
  | VStr s => mret s
  | VInt z => mret (pretty z)
  | VRef l => rec l
  end.

(** [FeatureTemplate.__repr__]: the four attributes are read, left to right,
    to build the argument tuple; then the tuple is formatted. *)
Fixpoint FeatureTemplate_repr (fuel : nat) (self : loc) : M string :=
  match fuel with
  | O => out_of_fuel
  | S k =>
      label ← getattr self "label";
      xp ← getattr self "xpath";
      attrib ← getattr self "attrib";
      ss ← getattr self "subsets";
      s1 ← format_s (FeatureTemplate_repr k) label;
      s2 ← format_s (FeatureTemplate_repr k) xp;
      s3 ← format_s (FeatureTemplate_repr k) attrib;
      s4 ← format_s (FeatureTemplate_repr k) ss;
      mret ("<" +:+ s1 +:+ ", XPath='" +:+ s2 +:+ "', attrib=" +:+ s3
              +:+ ", subsets=" +:+ s4 +:+ ">")
  end.

Definition pystr (fuel : nat) (v : value) : M string :=
  format_s (FeatureTemplate_repr fuel) v.

(** [a + b] on the values of the model. *)
Definition pyadd (a b : value) : M value :=
  match a, b with
  | VStr s, VStr t => mret (VStr (s +:+ t))
  | VInt x, VInt y => mret (VInt (x + y))
  | _, _ => raise TypeError
  end.

(** ** Constructors *)

(** [FeatureTemplate.__init__(self)] *)
Definition FeatureTemplate_init (self : loc) : M unit :=
  setattr self "label" VNone;;
  setattr self "xpath" (VStr "//node");;
  setattr self "subsets" VNone.

(** [Mention.__init__(self, cid)] *)
Definition Mention_init (fuel : nat) (self : loc) (cid : value) : M unit :=
  setattr self "label" (VStr "MENTION");;
  c ← pystr fuel cid;
  setattr self "xpath" (VStr (".//node[@cid='" +:+ c +:+ "']"));;
  setattr self "subsets" (VInt 100).

(** [target.name = v] where the target is itself the value of an expression. *)
Definition setattr_on (target : value) (name : string) (v : value) : M unit :=
  match target with
  | VRef l => setattr l name v
  | _ => raise (AttributeError name)
  end.

(** [Get.__init__(self, f, attrib)]: both assignments go through [self.f],
    that is, to the object [f] itself. *)
Definition Get_init (fuel : nat) (self : loc) (f : loc) (attrib : string) : M unit :=
  setattr self "f" (VRef f);;
  lbl ← getattr f "label";
  s ← pystr fuel lbl;
  t ← getattr self "f";
  setattr_on t "label" (VStr (upper attrib +:+ "-" +:+ s));;
  xp ← getattr f "xpath";
  xp1 ← pyadd xp (VStr "/@");
  xp2 ← pyadd xp1 (VStr attrib);
  t' ← getattr self "f";
  setattr_on t' "xpath" xp2.

(** [Left.__init__(self, f)] *)
Definition Left_init (fuel : nat) (self : loc) (f : loc) : M unit :=
  lbl ← getattr f "label";
  s ← pystr fuel lbl;
  setattr self "label" (VStr ("LEFT-OF-" +:+ s));;
  xp ← getattr f "xpath";
  xp' ← pyadd xp (VStr "/preceding-sibling::node");
  setattr self "xpath" xp';;
  setattr self "subsets" (VInt 3).

(** [Right.__init__(self, f)] *)
Definition Right_init (fuel : nat) (self : loc) (f : loc) : M unit :=
  lbl ← getattr f "label";
  s ← pystr fuel lbl;
  setattr self "label" (VStr ("RIGHT-OF-" +:+ s));;
  xp ← getattr f "xpath";
  xp' ← pyadd xp (VStr "/following-sibling::node");
  setattr self "xpath" xp';;
  setattr self "subsets" (VInt 3).

(** [Between.__init__(self, f1, f2)] *)
Definition Between_init (fuel : nat) (self : loc) (f1 f2 : loc) : M unit :=
  l1 ← getattr f1 "label";
  l2 ← getattr f2 "label";
  s1 ← pystr fuel l1;
  s2 ← pystr fuel l2;
  setattr self "label" (VStr ("BETWEEN-" +:+ s1 +:+ "-" +:+ s2));;
  setattr self "xpath" (VStr "/ancestor::node");;
  x1 ← getattr f1 "xpath";
  setattr self "xpath1" x1;;
  x2 ← getattr f2 "xpath";
  setattr self "xpath2" x2;;
  setattr self "subsets" VNone.

(** [C(args)]: create the instance, then run [C.__init__] on it. *)
Definition new (c : class) (init : loc → M unit) : M loc :=
  self ← alloc c;
  init self;;
  mret self.

(** ** Applying a template *)

Section Apply.

(** The document tree and its query engine.  Nodes are hashable (they are
    put in a [set]) and printable; a query returns the matching nodes in
    document order, or fails. *)
Context {node : Type} `{Countable node}.
Context {tree : Type}.
Variable node_str : node → string.
Variable xpath : tree → string → option (list node).

(** [root.xpath(sel)] *)
Definition call_xpath (root : tree) (sel : value) : M (list node) :=
  match sel with
  | VStr s =>
      match xpath root s with
      | Some res => mret res
      | None => raise XPathEvalError
      end
  | _ => raise TypeError
  end.

(** [FeatureTemplate._feat_str(self, res_set)] *)
Definition FeatureTemplate_feat_str (fuel : nat) (self : loc) (res_set : list node)
  : M string :=
  lbl ← getattr self "label";
  let toks := join "_" (node_str <$> res_set) in
  s ← pystr fuel lbl;
  mret (s +:+ "[" +:+ toks +:+ "]").

(** [FeatureTemplate.apply(self, root)], with the generator run to its end. *)
Definition FeatureTemplate_apply (fuel : nat) (self : loc) (root : tree)
  : M (list string) :=
  xp ← getattr self "xpath";
  res ← call_xpath root xp;
  ss ← getattr self "subsets";
  res_sets ← match ss with
             | VNone => mret [res]
             | VInt L => mret (subsets res L)
             | _ => raise TypeError
             end;
  mapM (FeatureTemplate_feat_str fuel self) res_sets.

(** [Get.apply(self, root)]: [return self.f.apply(root)]; [apply_method] is
    the method call on the wrapped object. *)
Definition Get_apply (apply_method : loc → tree → M (list string))
    (self : loc) (root : tree) : M (list string) :=
  f ← getattr self "f";
  match f with
  | VRef l => apply_method l root
  | _ => raise (AttributeError "apply")
  end.

(** The first loop of [Between.apply]: append, then stop on a shared node. *)
Fixpoint scan_incl (shared : gset node) (it : list node) (b1 : list node)
  : list node :=
  match it with
  | [] => b1
  | n :: it' =>
      let b1 := b1 ++ [n] in
      if decide (n ∈ shared) then b1 else scan_incl shared it' b1
  end.

(** The second loop: stop on a shared node, else append. *)
Fixpoint scan_excl (shared : gset node) (it : list node) (b2 : list node)
  : list node :=
  match it with
  | [] => b2
  | n :: it' =>
      if decide (n ∈ shared) then b2 else scan_excl shared it' (b2 ++ [n])
  end.

(** [Between.apply(self, root)] *)
Definition Between_apply (fuel : nat) (self : loc) (root : tree)
  : M (list string) :=
  x1 ← getattr self "xpath1";
  x ← getattr self "xpath";
  q1 ← pyadd x1 x;
  p1 ← call_xpath root q1;
  x2 ← getattr self "xpath2";
  x' ← getattr self "xpath";
  q2 ← pyadd x2 x';
  p2 ← call_xpath root q2;
  let shared : gset node := list_to_set p1 ∩ list_to_set p2 in
  let b1 := scan_incl shared (reverse p1) [] in
  let b2 := scan_excl shared (reverse p2) [] in
  s ← FeatureTemplate_feat_str fuel self (b1 ++ reverse b2);
  mret [s].

(** [t.apply(root)]: the method is resolved on the class of [t]. *)
Fixpoint apply (fuel : nat) (self : loc) (root : tree) : M (list string) :=
  match fuel with
  | O => out_of_fuel
  | S k =>
      c ← class_of self;
      match c with
      | Get => Get_apply (apply k) self root
      | Between => Between_apply k self root
      | _ => FeatureTemplate_apply k self root
      end
  end.

End Apply.

(** ** Reference definitions, in the words of the specification *)

(** The contiguous subsequences of [x] of length 1 to [min(n, L)]: the outer
    enumeration is over the length, the inner one over the starting offset,
    from 0 to [n - len]. *)
Definition ngrams_spec {A} (x : list A) (L : Z) : list (list A) :=
  let n := List.length x in
  concat ((λ len, (λ off, take len (drop off x)) <$> seq 0 (n - len + 1))
            <$> seq 1 (n `min` Z.to_nat L)).

(** [Σ_{l=1}^{min(n,L)} (n-l+1)] *)
Definition ngrams_count (n : nat) (L : Z) : nat :=
  sum_list ((λ l, n - l + 1)%nat <$> seq 1 (n `min` Z.to_nat L)).

(** ** Auxiliary notions used in the statements *)

(** The printed form of a value that is not an object reference. *)
Definition scalar_str (v : value) : option string :=
  match v with
  | VNone => Some "None"
  | VStr s => Some s
  | VInt z => Some (pretty z)
  | VRef _ => None
  end.

(** A computation that leaves the heap as it found it. *)
Definition readonly {A} (m : M A) : Prop := ∀ h, (m h).2 = h.

(** The rendering rule [LABEL[s_1_..._s_k]] on a group of nodes. *)
Definition render {node} (node_str : node → string) (label : string)
    (group : list node) : string :=
  label +:+ "[" +:+ join "_" (node_str <$> group) +:+ "]".

(** A constructor call [C(args)] of the module. *)
Inductive ctor_call :=
  | CallFeatureTemplate
  | CallMention (cid : value)
  | CallGet (f : loc) (attrib : string)
  | CallLeft (f : loc)
  | CallRight (f : loc)
  | CallBetween (f1 f2 : loc).

Definition construct (fuel : nat) (c : ctor_call) : M loc :=
  match c with
  | CallFeatureTemplate => new FeatureTemplate FeatureTemplate_init
  | CallMention cid => new Mention (λ self, Mention_init fuel self cid)
  | CallGet f attrib => new Get (λ self, Get_init fuel self f attrib)
  | CallLeft f => new Left (λ self, Left_init fuel self f)
  | CallRight f => new Right (λ self, Right_init fuel self f)
  | CallBetween f1 f2 => new Between (λ self, Between_init fuel self f1 f2)
  end.

(** The classes whose [apply] is the one inherited from [FeatureTemplate]. *)
Definition uses_default_apply (c : class) : bool :=
  match c with
  | Get | Between => false
  | _ => true
  end.

(** A field holding an optional integer bound. *)
Definition bound_value (b : option Z) : value :=
  match b with
  | None => VNone
  | Some L => VInt L
  end.

(** The groups that the default pipeline renders. *)
Definition groups {A} (b : option Z) (res : list A) : list (list A) :=
  match b with
  | None => [res]
  | Some L => subsets res L
  end.

(** [b] is the part of [l] scanned up to and including the first element
    that satisfies [P], or all of [l] when there is none. *)
Definition stops_inclusive {A} (P : A → Prop) (l b : list A) : Prop :=
  (b = l ∧ ∀ x, x ∈ l → ¬ P x)
  ∨ (∃ pre x rest, l = pre ++ x :: rest ∧ b = pre ++ [x] ∧ P x
                   ∧ ∀ y, y ∈ pre → ¬ P y).

(** [b] is the part of [l] scanned up to but excluding the first element
    that satisfies [P], or all of [l] when there is none. *)
Definition stops_exclusive {A} (P : A → Prop) (l b : list A) : Prop :=
  (b = l ∧ ∀ x, x ∈ l → ¬ P x)
  ∨ (∃ pre x rest, l = pre ++ x :: rest ∧ b = pre ∧ P x
                   ∧ ∀ y, y ∈ pre → ¬ P y).

(** The number of positions of [l] that hold [x]. *)
Definition occurrences {A} `{EqDecision A} (x : A) (l : list A) : nat :=
  List.length (filter (λ y, y = x) l).

(** ** A small document used in the examples

    Nodes are numbered; [10] is the root, [11] its child, [12] below [11] on
    the side of mention 5, and [13], [14] on the side of mention 6. *)
Definition example_xpath (root : unit) (sel : string) : option (list nat) :=
  if decide (sel = ".//node[@cid='5']") then Some [1; 2]%nat
  else if decide (sel = ".//node[@cid='5']/ancestor::node") then Some [10; 11; 12]%nat
  else if decide (sel = ".//node[@cid='6']/ancestor::node") then Some [10; 11; 13; 14]%nat
  else if decide (sel = ".//node[@cid='5']/preceding-sibling::node") then Some [7; 8]%nat
  else if decide (sel = ".//node[@cid='5']/following-sibling::node") then Some [9]%nat
  else if decide (sel = ".//node[@cid='7']/ancestor::node") then Some [20; 21]%nat
  else if decide (sel = ".//node[") then None
  else Some [].

Definition example_str (n : nat) : string := pretty n.

(** The heap after
    [m5 = Mention(5); m6 = Mention('6'); m7 = Mention(7); m9 = Mention(9);
     ft = FeatureTemplate(); b95 = Between(m9, m5); b57 = Between(m5, m7)],
    at addresses 0 to 6. *)
Definition example_program : M loc :=
  _ ← construct 0 (CallMention (VInt 5));
  _ ← construct 0 (CallMention (VStr "6"));
  _ ← construct 0 (CallMention (VInt 7));
  _ ← construct 0 (CallMention (VInt 9));
  _ ← construct 0 CallFeatureTemplate;
  _ ← construct 0 (CallBetween 3 0);
  construct 0 (CallBetween 0 2).

Definition example_heap : heap := snd (example_program []).

(** What [Left(f)] and [Right(f)] promise, for the class [c], the label
    prefix and the axis step of the side: the fields of the new template [t]
    in the heap [h'], and what its [apply] emits when the extended selector
    answers [res]. *)
Definition directional_post {node tree} `{Countable node}
    (node_str : node → string) (xpath : tree → string → option (list node))
    (c : class) (label sel : string) (n : nat) (root : tree) (res : list node)
    (t : loc) (h' : heap) : Prop :=
  class_of t h' = (Val c, h')
  ∧ uses_default_apply c = true
  ∧ getattr t "label" h' = (Val (VStr label), h')
  ∧ getattr t "xpath" h' = (Val (VStr sel), h')
  ∧ getattr t "subsets" h' = (Val (VInt 3), h')
  ∧ apply node_str xpath (S n) t root h'
    = (Val (render node_str label <$> subsets res 3), h')
  ∧ subsets res 3 = ngrams_spec res (Z.of_nat (3 `min` List.length res))
  ∧ Forall (λ g, 1 ≤ List.length g ≤ 3 `min` List.length res)%nat (subsets res 3).

(** A document in which mention 5 spans 101 nodes. *)
Definition long_mention : list nat := seq 0 101.

Definition long_xpath (root : unit) (sel : string) : option (list nat) :=
  if decide (sel = ".//node[@cid='5']") then Some long_mention else Some [].

(** The invariant of the data model: [label] and [xpath] hold non-empty
    strings. *)
Definition nonempty_str (v : value) : Prop := ∃ s, v = VStr s ∧ s ≠ EmptyString.

Definition has_label_and_selector (t : loc) (h : heap) : Prop :=
  ∃ lbl sel,
    getattr t "label" h = (Val lbl, h) ∧ nonempty_str lbl
    ∧ getattr t "xpath" h = (Val sel, h) ∧ nonempty_str sel.

(** The attribute whose absence [__repr__] meets first on a new instance. *)
Definition repr_missing (c : ctor_call) : string :=
  match c with
  | CallGet _ _ => "label"
  | _ => "attrib"
  end.


(** ** Further notions, for the properties beyond the specification *)

(** [g] is a contiguous run of [x]. *)
Definition contiguous_in {A} (g x : list A) : Prop :=
  ∃ pre post, x = pre ++ g ++ post.

(** A stricter engine for the examples: as [example_xpath], but an
    attribute step may not follow an attribute step, and attribute values
    have no ancestors (the query fails, as lxml does on a malformed path). *)
Definition strict_xpath (root : unit) (sel : string) : option (list nat) :=
  if decide (sel = ".//node[@cid='5']/@word") then Some [31; 32]%nat
  else if decide (sel = ".//node[@cid='5']/@word/@word") then None
  else if decide (sel = ".//node[@cid='5']/@word/ancestor::node") then None
  else if decide (sel = ".//node[@cid='5']/ancestor::node/@word")
    then Some [40; 41; 42]%nat
  else if decide (sel = ".//node[@cid='6']/ancestor::node/@word")
    then Some [40; 41; 43; 44]%nat
  else if decide (sel = "//node") then Some [10; 11; 12]%nat
  else example_xpath root sel.

Definition is_Get_call (c : ctor_call) : bool :=
  match c with
  | CallGet _ _ => true
  | _ => false
  end.

(** The object that a constructor call writes to besides the new one:
    only [Get] has one, the template it wraps. *)
Definition mutated_by (c : ctor_call) : option loc :=
  match c with
  | CallGet f _ => Some f
  | _ => None
  end.

(** The outcome of [m] is the same in every heap that holds the object [o]
    at the address [t], and [m] changes no heap. *)
Definition determined_by {A} (t : loc) (o : obj) (m : M A) : Prop :=
  ∃ r, ∀ h : heap, h !! t = Some o → m h = (r, h).

(** The example heap after [l5 = Left(m5)] (address 7),
    [b56 = Between(m5, m6)] (8) and [b65 = Between(m6, m5)] (9). *)
Definition example_program2 : M loc :=
  _ ← construct 0 (CallLeft 0);
  _ ← construct 0 (CallBetween 0 1);
  construct 0 (CallBetween 1 0).

Definition example_heap2 : heap := snd (example_program2 example_heap).

(** The example heap after [Get(m5, 'word'); Get(m5, 'word')]: the selector
    of [m5] now ends in [/@word/@word]. *)
Definition example_heap3 : heap :=
  snd ((_ ← construct 0 (CallGet 0 "word"); construct 0 (CallGet 0 "word"))
         example_heap).

(** The example heap after [Get(m5, 'word'); Between(m5, m6)] (the latter at
    address 8). *)
Definition example_heap4 : heap :=
  snd ((_ ← construct 0 (CallGet 0 "word"); construct 0 (CallBetween 0 1))
         example_heap).
(** * Properties *)

(** ** The subsequence generator *)

Lemma range_fmap {B} (f : Z → B) (n : Z) :
  f <$> range n = (λ i : nat, f (Z.of_nat i)) <$> seq 0 (Z.to_nat n).
Proof. unfold range. by rewrite <- list_fmap_compose. Qed.

Lemma slice_take_drop {A} (x : list A) (s l : nat) :
  (s + l < List.length x)%nat →
  slice x (Z.of_nat s) (Z.of_nat s + Z.of_nat l + 1) = take (S l) (drop s x).
Proof.
  intros Hlt. unfold slice, clamp_index.
  destruct (Z.ltb_spec (Z.of_nat s) 0) as [?|_]; [lia|].
  destruct (Z.ltb_spec (Z.of_nat s + Z.of_nat l + 1) 0) as [?|_]; [lia|].
  rewrite !Z.min_l by lia.
  replace (Z.to_nat (Z.of_nat s + Z.of_nat l + 1 - Z.of_nat s)) with (S l) by lia.
  by rewrite Nat2Z.id.
Qed.

Lemma length_concat_sum {A} (ls : list (list A)) :
  List.length (concat ls) = sum_list (List.length <$> ls).
Proof. induction ls as [|l ls IH]; [done|]. simpl. rewrite length_app, IH. done. Qed.

Lemma subsets_nil {A} (L : Z) : subsets ([] : list A) L = [].
Proof.
  unfold subsets, range. simpl.
  by replace (Z.to_nat (Z.of_nat 0 `min` L)) with 0%nat by lia.
Qed.

Lemma subsets_ngrams {A} (x : list A) (L : Z) : subsets x L = ngrams_spec x L.
Proof.
  unfold subsets, ngrams_spec. f_equal.
  rewrite range_fmap, <- fmap_S_seq, <- list_fmap_compose.
  replace (Z.to_nat (Z.of_nat (List.length x) `min` L))
    with (List.length x `min` Z.to_nat L)%nat by lia.
  apply list_fmap_ext. intros i l Hl.
  apply lookup_seq in Hl as [-> Hi]. simpl.
  rewrite range_fmap.
  replace (Z.to_nat (Z.of_nat (List.length x) - Z.of_nat i))
    with (List.length x - S i + 1)%nat by lia.
  apply list_fmap_ext. intros j s Hs.
  apply lookup_seq in Hs as [-> Hj]. simpl.
  apply slice_take_drop. lia.
Qed.

(** C2. For every sequence [x] of length [n] and every bound [L], [subsets]
    emits exactly the contiguous slices of [x] of length 1 to [min(n, L)],
    in length-major order with ascending offsets 0 to [n - l] within each
    length; there are [Σ_{l=1}^{min(n,L)} (n-l+1)] of them, and there are none
    when [n = 0] or [L = 0]. *)
Theorem subsets_contract {A} (x : list A) (L : Z) :
  subsets x L = ngrams_spec x L
  ∧ List.length (subsets x L) = ngrams_count (List.length x) L
  ∧ subsets ([] : list A) L = []
  ∧ subsets x 0 = [].
Proof.
  split; [apply subsets_ngrams|]. split; [|split].
  - rewrite subsets_ngrams. unfold ngrams_spec, ngrams_count.
    rewrite length_concat_sum, <- list_fmap_compose. f_equal.
    apply list_fmap_ext. intros i l Hl. apply lookup_seq in Hl as [-> Hi].
    simpl. rewrite length_fmap, length_seq. done.
  - apply subsets_nil.
  - unfold subsets. by rewrite Z.min_r by lia.
Qed.

(** ** The monad: evaluation and frame lemmas *)

Lemma bind_val {A B} (m : M A) (k : A → M B) h a h' :
  m h = (Val a, h') → (m ≫= k) h = k a h'.
Proof. intros Hm. unfold mbind, M_bind. by rewrite Hm. Qed.

Lemma bind_exc {A B} (m : M A) (k : A → M B) h e h' :
  m h = (Exc e, h') → (m ≫= k) h = (Exc e, h').
Proof. intros Hm. unfold mbind, M_bind. by rewrite Hm. Qed.

Lemma bind_assoc {A B C} (m : M A) (k : A → M B) (k' : B → M C) h :
  ((m ≫= k) ≫= k') h = (m ≫= (λ a, k a ≫= k')) h.
Proof. unfold mbind, M_bind. by destruct (m h) as [[?|?| |] ?]. Qed.

Lemma readonly_ret {A} (a : A) : readonly (mret a).
Proof. by intros h. Qed.

Lemma readonly_raise {A} e : readonly (@raise A e).
Proof. by intros h. Qed.

Lemma readonly_out_of_fuel {A} : readonly (@out_of_fuel A).
Proof. by intros h. Qed.

Lemma readonly_bind {A B} (m : M A) (k : A → M B) :
  readonly m → (∀ a, readonly (k a)) → readonly (m ≫= k).
Proof.
  intros Hm Hk h. unfold mbind, M_bind. specialize (Hm h).
  destruct (m h) as [[a|e| |] h']; simpl in *; subst; try done. apply Hk.
Qed.

Lemma readonly_getattr l name : readonly (getattr l name).
Proof. intros h. unfold getattr. by repeat case_match. Qed.

Lemma readonly_class_of l : readonly (class_of l).
Proof. intros h. unfold class_of. by case_match. Qed.

Lemma readonly_pyadd a b : readonly (pyadd a b).
Proof. destruct a, b; simpl; first [apply readonly_ret | apply readonly_raise]. Qed.

Lemma readonly_format_s rec v :
  (∀ l, readonly (rec l)) → readonly (format_s rec v).
Proof. intros Hrec. destruct v; simpl; auto using readonly_ret. Qed.

Create HintDb ro discriminated.
#[export] Hint Resolve readonly_ret readonly_raise readonly_out_of_fuel
  readonly_getattr readonly_class_of readonly_pyadd readonly_format_s : ro.

Ltac ro_step :=
  first [ apply readonly_bind; [|intros ?] | progress (eauto with ro) ].

Lemma readonly_repr fuel self : readonly (FeatureTemplate_repr fuel self).
Proof.
  revert self. induction fuel as [|k IH]; intros self; simpl; [eauto with ro|].
  repeat ro_step.
Qed.
#[export] Hint Resolve readonly_repr : ro.

Lemma readonly_pystr fuel v : readonly (pystr fuel v).
Proof. unfold pystr. eauto with ro. Qed.
#[export] Hint Resolve readonly_pystr : ro.

Lemma readonly_mapM {A B} (f : A → M B) xs :
  (∀ x, readonly (f x)) → readonly (mapM f xs).
Proof. intros Hf. induction xs as [|x xs IH]; simpl; repeat ro_step. Qed.

Section ApplyReadonly.
Context {node : Type} `{Countable node} {tree : Type}.
Variable node_str : node → string.
Variable xpath : tree → string → option (list node).

Lemma readonly_call_xpath root sel : readonly (call_xpath xpath root sel).
Proof. unfold call_xpath. repeat case_match; eauto with ro. Qed.

Lemma readonly_feat_str fuel self g :
  readonly (FeatureTemplate_feat_str node_str fuel self g).
Proof. unfold FeatureTemplate_feat_str. repeat ro_step. Qed.

Lemma readonly_FeatureTemplate_apply fuel self root :
  readonly (FeatureTemplate_apply node_str xpath fuel self root).
Proof.
  unfold FeatureTemplate_apply.
  repeat ro_step; auto using readonly_call_xpath.
  - case_match; eauto with ro.
  - apply readonly_mapM. intros. apply readonly_feat_str.
Qed.

Lemma readonly_Between_apply fuel self root :
  readonly (Between_apply node_str xpath fuel self root).
Proof.
  unfold Between_apply.
  repeat ro_step; auto using readonly_call_xpath, readonly_feat_str.
Qed.

Lemma readonly_apply fuel self root :
  readonly (apply node_str xpath fuel self root).
Proof.
  revert self. induction fuel as [|k IH]; intros self; simpl; [eauto with ro|].
  apply readonly_bind; [eauto with ro|]. intros c.
  destruct c; auto using readonly_FeatureTemplate_apply, readonly_Between_apply.
  unfold Get_apply. apply readonly_bind; [eauto with ro|].
  intros [| | |l]; eauto with ro.
Qed.

(** C9. Two successive calls [t.apply(root)] on the same template and tree,
    with nothing in between, give the same outcome: the first call leaves
    every object as it was, so the second one produces the same sequence of
    feature strings, element for element (or raises the same exception). *)
Theorem apply_idempotent fuel (t : loc) (root : tree) (h : heap) :
  (apply node_str xpath fuel t root h).2 = h
  ∧ apply node_str xpath fuel t root (apply node_str xpath fuel t root h).2
    = apply node_str xpath fuel t root h.
Proof.
  pose proof (readonly_apply fuel t root h) as Hro.
  split; [done|]. by rewrite Hro.
Qed.

Lemma apply_twice fuel (t : loc) (root : tree) (h : heap) :
  (r1 ← apply node_str xpath fuel t root;
   r2 ← apply node_str xpath fuel t root;
   mret (r1, r2)) h
  = (r ← apply node_str xpath fuel t root; mret (r, r)) h.
Proof.
  pose proof (readonly_apply fuel t root h) as Hro.
  unfold mbind, M_bind.
  destruct (apply node_str xpath fuel t root h) as [[r|e| |] h'] eqn:Hr;
    simpl in Hro; subst h'; try done.
  by rewrite Hr.
Qed.

End ApplyReadonly.

(** ** Running the heap primitives *)

Lemma lookup_new (h : heap) o : (h ++ [o]) !! List.length h = Some o.
Proof. by rewrite list_lookup_middle. Qed.

Lemma lookup_old (h : heap) o l fo : h !! l = Some fo → (h ++ [o]) !! l = Some fo.
Proof. apply lookup_app_l_Some. Qed.

Lemma insert_new (h : heap) o o' : <[List.length h := o']> (h ++ [o]) = h ++ [o'].
Proof.
  rewrite insert_app_r_alt by lia. by rewrite Nat.sub_diag.
Qed.

Lemma getattr_run h l o name :
  h !! l = Some o →
  getattr l name h
  = (match attrs o !! name with
     | Some v => Val v
     | None => Exc (AttributeError name)
     end, h).
Proof. intros Hl. unfold getattr. rewrite Hl. by case_match. Qed.

Lemma getattr_some h l o name v :
  h !! l = Some o → attrs o !! name = Some v → getattr l name h = (Val v, h).
Proof. intros Hl Hv. by rewrite (getattr_run _ _ _ _ Hl), Hv. Qed.

Lemma getattr_none h l o name :
  h !! l = Some o → attrs o !! name = None →
  getattr l name h = (Exc (AttributeError name), h).
Proof. intros Hl Hv. by rewrite (getattr_run _ _ _ _ Hl), Hv. Qed.

Lemma setattr_run h l o name v :
  h !! l = Some o →
  setattr l name v h = (Val (), <[l := Obj (cls o) (<[name := v]> (attrs o))]> h).
Proof. intros Hl. unfold setattr. by rewrite Hl. Qed.

Lemma setattr_new h c a name v :
  setattr (List.length h) name v (h ++ [Obj c a])
  = (Val (), h ++ [Obj c (<[name := v]> a)]).
Proof. by rewrite (setattr_run _ _ _ _ _ (lookup_new h _)), insert_new. Qed.

Lemma class_of_run h l o : h !! l = Some o → class_of l h = (Val (cls o), h).
Proof. intros Hl. unfold class_of. by rewrite Hl. Qed.

Lemma pystr_scalar fuel v s h : scalar_str v = Some s → pystr fuel v h = (Val s, h).
Proof. destruct v; simpl; intros; simplify_eq; done. Qed.

(** One step of symbolic execution of a computation in [M]: reassociate the
    sequence, or run its first instruction when it is an attribute access on
    the new object or on a known one, a [str] of a scalar, or pure. *)
Ltac find_object :=
  first [ apply lookup_new | eapply lookup_old; eassumption | eassumption ].

Ltac find_attr := first [ eassumption | by simplify_map_eq ].

Ltac run_instr :=
  first [ apply setattr_new
        | eapply getattr_some; [find_object | find_attr]
        | eapply pystr_scalar; eassumption
        | reflexivity ].

Ltac mstep := first [ rewrite bind_assoc | erewrite bind_val by run_instr ].

Tactic Notation "mstep_by" tactic3(tac) :=
  cbv beta; rewrite ?bind_assoc; erewrite bind_val by tac.

Lemma new_Left_run fuel h f fo lbl s xp :
  h !! f = Some fo →
  attrs fo !! "label" = Some lbl → scalar_str lbl = Some s →
  attrs fo !! "xpath" = Some (VStr xp) →
  new Left (λ self, Left_init fuel self f) h
  = (Val (List.length h),
     h ++ [Obj Left (<["subsets" := VInt 3]>
                     (<["xpath" := VStr (xp +:+ "/preceding-sibling::node")]>
                      (<["label" := VStr ("LEFT-OF-" +:+ s)]> ∅)))]).
Proof.
  intros Hf Hlbl Hs Hxp. unfold new, Left_init.
  repeat mstep. done.
Qed.

Lemma new_Right_run fuel h f fo lbl s xp :
  h !! f = Some fo →
  attrs fo !! "label" = Some lbl → scalar_str lbl = Some s →
  attrs fo !! "xpath" = Some (VStr xp) →
  new Right (λ self, Right_init fuel self f) h
  = (Val (List.length h),
     h ++ [Obj Right (<["subsets" := VInt 3]>
                      (<["xpath" := VStr (xp +:+ "/following-sibling::node")]>
                       (<["label" := VStr ("RIGHT-OF-" +:+ s)]> ∅)))]).
Proof.
  intros Hf Hlbl Hs Hxp. unfold new, Right_init.
  repeat mstep. done.
Qed.

Lemma new_FeatureTemplate_run h :
  new FeatureTemplate FeatureTemplate_init h
  = (Val (List.length h),
     h ++ [Obj FeatureTemplate (<["subsets" := VNone]>
                                (<["xpath" := VStr "//node"]>
                                 (<["label" := VNone]> ∅)))]).
Proof. unfold new, FeatureTemplate_init. repeat mstep. done. Qed.

Lemma new_Mention_run fuel h cid c :
  scalar_str cid = Some c →
  new Mention (λ self, Mention_init fuel self cid) h
  = (Val (List.length h),
     h ++ [Obj Mention (<["subsets" := VInt 100]>
                        (<["xpath" := VStr (".//node[@cid='" +:+ c +:+ "']")]>
                         (<["label" := VStr "MENTION"]> ∅)))]).
Proof. intros Hc. unfold new, Mention_init. repeat mstep. done. Qed.

Lemma new_Between_run fuel h f1 f2 o1 o2 l1 l2 s1 s2 x1 x2 :
  h !! f1 = Some o1 → h !! f2 = Some o2 →
  attrs o1 !! "label" = Some l1 → scalar_str l1 = Some s1 →
  attrs o2 !! "label" = Some l2 → scalar_str l2 = Some s2 →
  attrs o1 !! "xpath" = Some x1 → attrs o2 !! "xpath" = Some x2 →
  new Between (λ self, Between_init fuel self f1 f2) h
  = (Val (List.length h),
     h ++ [Obj Between
             (<["subsets" := VNone]>
              (<["xpath2" := x2]>
               (<["xpath1" := x1]>
                (<["xpath" := VStr "/ancestor::node"]>
                 (<["label" := VStr ("BETWEEN-" +:+ s1 +:+ "-" +:+ s2)]> ∅)))))]).
Proof.
  intros Hf1 Hf2 Hl1 Hs1 Hl2 Hs2 Hx1 Hx2. unfold new, Between_init.
  repeat mstep. done.
Qed.

Lemma new_Get_run fuel h f fo lbl s xp a :
  h !! f = Some fo →
  attrs fo !! "label" = Some lbl → scalar_str lbl = Some s →
  attrs fo !! "xpath" = Some (VStr xp) →
  new Get (λ self, Get_init fuel self f a) h
  = (Val (List.length h),
     <[f := Obj (cls fo)
              (<["xpath" := VStr ((xp +:+ "/@") +:+ a)]>
               (<["label" := VStr (upper a +:+ "-" +:+ s)]> (attrs fo)))]>
       (h ++ [Obj Get (<["f" := VRef f]> ∅)])).
Proof.
  intros Hf Hlbl Hs Hxp. unfold new, Get_init.
  assert (f < List.length h)%nat as Hlt by (by eapply lookup_lt_Some).
  repeat mstep. simpl.
  mstep_by ltac:(eapply setattr_run, lookup_old, Hf).
  set (o1 := Obj (cls fo) _). set (h0 := h ++ _).
  assert (<[f:=o1]> h0 !! f = Some o1) as Hf1.
  { apply list_lookup_insert_eq. subst h0. rewrite length_app. lia. }
  assert (<[f:=o1]> h0 !! List.length h = Some (Obj Get (<["f" := VRef f]> ∅)))
    as Hself.
  { rewrite list_lookup_insert_ne by lia. apply lookup_new. }
  mstep_by ltac:(eapply getattr_some; [exact Hf1|]; subst o1; simpl;
                 by rewrite lookup_insert_ne).
  simpl. do 2 mstep_by reflexivity.
  mstep_by ltac:(eapply getattr_some; [exact Hself|]; by simplify_map_eq).
  simpl. mstep_by ltac:(eapply setattr_run, Hf1).
  rewrite list_insert_insert_eq. subst o1. simpl. done.
Qed.

(** ** Running [apply] *)

Lemma mapM_run {A B} (f : A → M B) (F : A → B) xs h :
  (∀ x, f x h = (Val (F x), h)) → mapM f xs h = (Val (F <$> xs), h).
Proof.
  intros Hf. induction xs as [|x xs IH]; [done|]. simpl.
  erewrite bind_val by apply Hf. erewrite bind_val by apply IH. done.
Qed.

Section ApplyRun.
Context {node : Type} `{Countable node} {tree : Type}.
Variable node_str : node → string.
Variable xpath : tree → string → option (list node).

Lemma feat_str_run fuel h t o lbl s g :
  h !! t = Some o → attrs o !! "label" = Some lbl → scalar_str lbl = Some s →
  FeatureTemplate_feat_str node_str fuel t g h = (Val (render node_str s g), h).
Proof.
  intros Ht Hlbl Hs. unfold FeatureTemplate_feat_str. repeat mstep. done.
Qed.

Lemma call_xpath_run root sel res h :
  xpath root sel = Some res → call_xpath xpath root (VStr sel) h = (Val res, h).
Proof. intros Hq. unfold call_xpath. by rewrite Hq. Qed.

Lemma apply_default_run fuel h t o sel res b lbl s root :
  h !! t = Some o → uses_default_apply (cls o) = true →
  attrs o !! "xpath" = Some (VStr sel) → xpath root sel = Some res →
  attrs o !! "subsets" = Some (bound_value b) →
  attrs o !! "label" = Some lbl → scalar_str lbl = Some s →
  apply node_str xpath (S fuel) t root h
  = (Val (render node_str s <$> groups b res), h).
Proof.
  intros Ht Hc Hsel Hq Hss Hlbl Hs. simpl.
  erewrite bind_val by (by apply class_of_run).
  assert (FeatureTemplate_apply node_str xpath fuel t root h
          = (Val (render node_str s <$> groups b res), h)) as Hrun.
  { unfold FeatureTemplate_apply. mstep.
    mstep_by ltac:(by apply call_xpath_run). mstep.
    assert (∀ gs, mapM (FeatureTemplate_feat_str node_str fuel t) gs h
                  = (Val (render node_str s <$> gs), h)) as Hmap.
    { intros gs. apply mapM_run. intros g. by eapply feat_str_run. }
    destruct b as [L|]; simpl; (erewrite bind_val by reflexivity); apply Hmap. }
  destruct (cls o); try done.
Qed.

Lemma apply_Get_run fuel h g o f root :
  h !! g = Some o → cls o = Get → attrs o !! "f" = Some (VRef f) →
  apply node_str xpath (S fuel) g root h = apply node_str xpath fuel f root h.
Proof.
  intros Hg Hc Hf. simpl.
  erewrite bind_val by (by apply class_of_run). rewrite Hc.
  unfold Get_apply. by mstep.
Qed.

Lemma apply_Between_run fuel h t o a1 ax a2 p1 p2 lbl s root :
  h !! t = Some o → cls o = Between →
  attrs o !! "xpath1" = Some (VStr a1) → attrs o !! "xpath" = Some (VStr ax) →
  attrs o !! "xpath2" = Some (VStr a2) →
  xpath root (a1 +:+ ax) = Some p1 → xpath root (a2 +:+ ax) = Some p2 →
  attrs o !! "label" = Some lbl → scalar_str lbl = Some s →
  apply node_str xpath (S fuel) t root h
  = (Val [render node_str s
            (scan_incl (list_to_set p1 ∩ list_to_set p2) (reverse p1) []
             ++ reverse (scan_excl (list_to_set p1 ∩ list_to_set p2)
                           (reverse p2) []))], h).
Proof.
  intros Ht Hc H1 Hx H2 Hq1 Hq2 Hlbl Hs. simpl.
  erewrite bind_val by (by apply class_of_run). rewrite Hc.
  unfold Between_apply. do 2 mstep. mstep_by reflexivity.
  mstep_by ltac:(by apply call_xpath_run).
  do 2 mstep. mstep_by reflexivity.
  mstep_by ltac:(by apply call_xpath_run).
  mstep_by ltac:(by eapply feat_str_run). done.
Qed.

End ApplyRun.

(** ** The two scans of [Between.apply] *)

Section Scans.
Context {node : Type} `{Countable node}.
Implicit Types (shared : gset node) (it acc : list node).

Lemma scan_incl_acc shared it acc :
  scan_incl shared it acc = acc ++ scan_incl shared it [].
Proof.
  revert acc. induction it as [|n it IH]; intros acc; simpl.
  - by rewrite app_nil_r.
  - case_decide; [done|].
    rewrite (IH (acc ++ [n])), (IH [n]). by rewrite <- app_assoc.
Qed.

Lemma scan_excl_acc shared it acc :
  scan_excl shared it acc = acc ++ scan_excl shared it [].
Proof.
  revert acc. induction it as [|n it IH]; intros acc; simpl.
  - by rewrite app_nil_r.
  - case_decide; [by rewrite app_nil_r|].
    rewrite (IH (acc ++ [n])), (IH [n]). by rewrite <- app_assoc.
Qed.

Lemma scan_incl_stops shared it :
  stops_inclusive (λ x, x ∈ shared) it (scan_incl shared it []).
Proof.
  induction it as [|n it IH]; simpl.
  - left. split; [done|]. intros x Hx. by apply elem_of_nil in Hx.
  - case_decide as Hn.
    + right. exists [], n, it. repeat split; try done.
      intros y Hy. by apply elem_of_nil in Hy.
    + rewrite scan_incl_acc.
      destruct IH as [[-> Hno]|(pre & x & rest & -> & -> & Hx & Hpre)].
      * left. split; [done|]. intros x [->|Hx]%elem_of_cons; auto.
      * right. exists (n :: pre), x, rest. repeat split; try done.
        intros y [->|Hy]%elem_of_cons; auto.
Qed.

Lemma scan_excl_stops shared it :
  stops_exclusive (λ x, x ∈ shared) it (scan_excl shared it []).
Proof.
  induction it as [|n it IH]; simpl.
  - left. split; [done|]. intros x Hx. by apply elem_of_nil in Hx.
  - case_decide as Hn.
    + right. exists [], n, it. repeat split; try done.
      intros y Hy. by apply elem_of_nil in Hy.
    + rewrite scan_excl_acc.
      destruct IH as [[-> Hno]|(pre & x & rest & -> & -> & Hx & Hpre)].
      * left. split; [done|]. intros x [->|Hx]%elem_of_cons; auto.
      * right. exists (n :: pre), x, rest. repeat split; try done.
        intros y [->|Hy]%elem_of_cons; auto.
Qed.

Lemma scan_incl_all shared it :
  (∀ x, x ∈ it → x ∉ shared) → scan_incl shared it [] = it.
Proof.
  induction it as [|n it IH]; intros Hno; simpl; [done|].
  rewrite decide_False by (apply Hno; left).
  rewrite scan_incl_acc, IH; [done|]. intros x Hx. apply Hno. by right.
Qed.

Lemma scan_excl_all shared it :
  (∀ x, x ∈ it → x ∉ shared) → scan_excl shared it [] = it.
Proof.
  induction it as [|n it IH]; intros Hno; simpl; [done|].
  rewrite decide_False by (apply Hno; left).
  rewrite scan_excl_acc, IH; [done|]. intros x Hx. apply Hno. by right.
Qed.

Lemma stops_inclusive_ext (P Q : node → Prop) l b :
  (∀ x, P x ↔ Q x) → stops_inclusive P l b → stops_inclusive Q l b.
Proof.
  intros HPQ [[-> Hno]|(pre & x & rest & -> & -> & Hx & Hpre)].
  - left. split; [done|]. intros x Hx. rewrite <- HPQ. auto.
  - right. exists pre, x, rest. repeat split; [by apply HPQ|].
    intros y Hy. rewrite <- HPQ. auto.
Qed.

Lemma stops_exclusive_ext (P Q : node → Prop) l b :
  (∀ x, P x ↔ Q x) → stops_exclusive P l b → stops_exclusive Q l b.
Proof.
  intros HPQ [[-> Hno]|(pre & x & rest & -> & -> & Hx & Hpre)].
  - left. split; [done|]. intros x Hx. rewrite <- HPQ. auto.
  - right. exists pre, x, rest. repeat split; [by apply HPQ|].
    intros y Hy. rewrite <- HPQ. auto.
Qed.

Lemma elem_of_shared (p1 p2 : list node) x :
  x ∈ (list_to_set p1 ∩ list_to_set p2 : gset node) ↔ x ∈ p1 ∧ x ∈ p2.
Proof. rewrite elem_of_intersection, !elem_of_list_to_set. done. Qed.

Lemma occurrences_app (x : node) l k :
  occurrences x (l ++ k) = (occurrences x l + occurrences x k)%nat.
Proof. unfold occurrences. by rewrite filter_app, length_app. Qed.

Lemma occurrences_none (x : node) l : x ∉ l → occurrences x l = 0%nat.
Proof.
  intros Hx. unfold occurrences. induction l as [|y l IH]; [done|].
  apply not_elem_of_cons in Hx as [Hne Hx].
  rewrite filter_cons_False by congruence. auto.
Qed.

Lemma occurrences_singleton (x : node) : occurrences x [x] = 1%nat.
Proof. unfold occurrences. by rewrite filter_cons_True. Qed.

End Scans.

Lemma stops_exclusive_none {A} (P : A → Prop) l b :
  stops_exclusive P l b → ∀ y, y ∈ b → ¬ P y.
Proof. intros [[-> Hno]|(pre & x & rest & -> & -> & Hx & Hpre)]; auto. Qed.

(** ** The [Between] template *)

Section BetweenClaims.
Context {node : Type} `{Countable node} {tree : Type}.
Variable node_str : node → string.
Variable xpath : tree → string → option (list node).

(** C1. For every root and every pair of inner templates [f1], [f2] (objects
    with a printable label and a string selector, whose ancestor queries
    answer [p1] and [p2]), [Between(f1, f2).apply(root)] emits exactly one
    feature string, rendered from [b1 ++ reverse b2], where [b1] is [p1]
    scanned from its last element backwards up to and including the first
    node that is in both [p1] and [p2], and [b2] is [p2] scanned the same way
    but excluding that node; when the scan of [p1] ends on such a shared node,
    it occurs exactly once in the emitted path. *)
Theorem Between_apply_path fuel n (h : heap) f1 f2 o1 o2 l1 l2 s1 s2 a1 a2
    root p1 p2 :
  h !! f1 = Some o1 → h !! f2 = Some o2 →
  attrs o1 !! "label" = Some l1 → scalar_str l1 = Some s1 →
  attrs o2 !! "label" = Some l2 → scalar_str l2 = Some s2 →
  attrs o1 !! "xpath" = Some (VStr a1) → attrs o2 !! "xpath" = Some (VStr a2) →
  xpath root (a1 +:+ "/ancestor::node") = Some p1 →
  xpath root (a2 +:+ "/ancestor::node") = Some p2 →
  ∃ b1 b2 h',
    (t ← construct fuel (CallBetween f1 f2);
     apply node_str xpath (S n) t root) h
    = (Val [render node_str ("BETWEEN-" +:+ s1 +:+ "-" +:+ s2)
              (b1 ++ reverse b2)], h')
    ∧ stops_inclusive (λ x, x ∈ p1 ∧ x ∈ p2) (reverse p1) b1
    ∧ stops_exclusive (λ x, x ∈ p1 ∧ x ∈ p2) (reverse p2) b2
    ∧ (∀ lca, last b1 = Some lca → lca ∈ p2 →
         occurrences lca (b1 ++ reverse b2) = 1%nat).
Proof.
  intros Hf1 Hf2 Hl1 Hs1 Hl2 Hs2 Hx1 Hx2 Hq1 Hq2.
  set (shared := (list_to_set p1 ∩ list_to_set p2 : gset node)).
  pose proof (scan_incl_stops shared (reverse p1)) as Hb1.
  pose proof (scan_excl_stops shared (reverse p2)) as Hb2.
  apply (stops_inclusive_ext _ (λ x, x ∈ p1 ∧ x ∈ p2)) in Hb1;
    [|intros; apply elem_of_shared].
  apply (stops_exclusive_ext _ (λ x, x ∈ p1 ∧ x ∈ p2)) in Hb2;
    [|intros; apply elem_of_shared].
  eexists (scan_incl shared (reverse p1) []),
          (scan_excl shared (reverse p2) []), _.
  split; [|split; [exact Hb1|split; [exact Hb2|]]].
  - simpl. erewrite bind_val by (by eapply new_Between_run).
    eapply apply_Between_run; try apply lookup_new; try done;
      by simplify_map_eq.
  - intros lca Hlast Hlca.
    pose proof (stops_exclusive_none _ _ _ Hb2) as Hnone.
    rewrite occurrences_app.
    rewrite (occurrences_none lca (reverse _)).
    2:{ rewrite elem_of_reverse. intros Hin. apply Hnone in Hin as Hn.
        apply Hn. split; [|done].
        apply last_Some_elem_of in Hlast.
        destruct Hb1 as [[Heq _]|(pre & x & rest & Hrev & Heq & _ & _)].
        - rewrite Heq in Hlast. by rewrite elem_of_reverse in Hlast.
        - rewrite Heq in Hlast. rewrite <- elem_of_reverse, Hrev.
          apply elem_of_app in Hlast as [?|Hl]; [set_solver|].
          apply list_elem_of_singleton in Hl as ->. set_solver. }
    destruct Hb1 as [[Heq Hno]|(pre & x & rest & Hrev & Heq & Hx & Hpre)].
    + exfalso. apply last_Some_elem_of in Hlast. rewrite Heq in Hlast.
      apply (Hno lca Hlast). split; [|done]. by rewrite <- elem_of_reverse.
    + rewrite Heq in Hlast |- *. rewrite last_snoc in Hlast.
      injection Hlast as ->.
      rewrite occurrences_app, occurrences_singleton, occurrences_none; [lia|].
      intros Hin. by apply (Hpre lca Hin).
Qed.

(** C7. When one of the two ancestor chains is empty, or the chains have no
    node in common, [Between.apply] raises nothing: both loops run to the
    end of their chain and the single feature emitted is rendered from
    [reverse p1] followed by [p2]. *)
Theorem Between_apply_no_shared n (h : heap) t o a1 ax a2 root p1 p2 lbl s :
  h !! t = Some o → cls o = Between →
  attrs o !! "xpath1" = Some (VStr a1) → attrs o !! "xpath" = Some (VStr ax) →
  attrs o !! "xpath2" = Some (VStr a2) →
  xpath root (a1 +:+ ax) = Some p1 → xpath root (a2 +:+ ax) = Some p2 →
  attrs o !! "label" = Some lbl → scalar_str lbl = Some s →
  (p1 = [] ∨ p2 = [] ∨ ∀ x, x ∈ p1 → x ∉ p2) →
  apply node_str xpath (S n) t root h
  = (Val [render node_str s (reverse p1 ++ p2)], h).
Proof.
  intros Ht Hc H1 Hx H2 Hq1 Hq2 Hlbl Hs Hempty.
  erewrite apply_Between_run by done.
  assert (∀ x, x ∉ (list_to_set p1 ∩ list_to_set p2 : gset node)) as Hno.
  { intros x [Hx1 Hx2]%elem_of_shared.
    destruct Hempty as [->|[->|Hd]]; [by apply elem_of_nil in Hx1
                                     |by apply elem_of_nil in Hx2
                                     |by apply (Hd x)]. }
  rewrite scan_incl_all, scan_excl_all by auto.
  by rewrite reverse_involutive.
Qed.

End BetweenClaims.

Lemma Between_apply_path_witness :
  ∃ b1 b2 h',
    (t ← construct 0 (CallBetween 0 1);
     apply example_str example_xpath 1 t ()) example_heap
    = (Val [render example_str ("BETWEEN-" +:+ "MENTION" +:+ "-" +:+ "MENTION")
              (b1 ++ reverse b2)], h')
    ∧ stops_inclusive (λ x, x ∈ [10; 11; 12]%nat ∧ x ∈ [10; 11; 13; 14]%nat)
        (reverse [10; 11; 12]%nat) b1
    ∧ stops_exclusive (λ x, x ∈ [10; 11; 12]%nat ∧ x ∈ [10; 11; 13; 14]%nat)
        (reverse [10; 11; 13; 14]%nat) b2
    ∧ (∀ lca, last b1 = Some lca → lca ∈ [10; 11; 13; 14]%nat →
         occurrences lca (b1 ++ reverse b2) = 1%nat).
Proof.
  eapply (Between_apply_path example_str example_xpath 0 0 example_heap 0 1
            _ _ (VStr "MENTION") (VStr "MENTION") _ _
            ".//node[@cid='5']" ".//node[@cid='6']");
    vm_compute; reflexivity.
Defined.

Lemma Between_apply_no_shared_witness :
  apply example_str example_xpath 1 5 () example_heap
  = (Val [render example_str "BETWEEN-MENTION-MENTION"
            (reverse [] ++ [10; 11; 12]%nat)], example_heap).
Proof.
  eapply (Between_apply_no_shared example_str example_xpath 0 example_heap 5 _
            ".//node[@cid='9']" "/ancestor::node" ".//node[@cid='5']" ()
            [] [10; 11; 12]%nat (VStr "BETWEEN-MENTION-MENTION"));
    first [by left | vm_compute; reflexivity].
Defined.

(** ** The default pipeline *)

Lemma ngrams_spec_lengths {A} (x : list A) (L : Z) :
  Forall (λ g, 1 ≤ List.length g ≤ List.length x `min` Z.to_nat L)%nat
    (ngrams_spec x L).
Proof.
  apply Forall_forall. intros g Hg. unfold ngrams_spec in Hg.
  apply list_elem_of_In, in_concat in Hg as (gs & Hgs & Hg).
  apply list_elem_of_In, list_elem_of_fmap in Hgs as (len & -> & Hlen).
  apply list_elem_of_In, list_elem_of_fmap in Hg as (off & -> & Hoff).
  apply elem_of_seq in Hlen. apply elem_of_seq in Hoff.
  rewrite length_take, length_drop. lia.
Qed.

Lemma ngrams_spec_min {A} (x : list A) (L : Z) :
  ngrams_spec x L = ngrams_spec x (Z.of_nat (Z.to_nat L `min` List.length x)).
Proof.
  unfold ngrams_spec. do 3 f_equal. lia.
Qed.

Section DefaultClaims.
Context {node : Type} `{Countable node} {tree : Type}.
Variable node_str : node → string.
Variable xpath : tree → string → option (list node).

(** C3. Applying a template of the default pipeline whose selector matches
    no node raises nothing: with [subsets] unset it yields the single
    feature [LABEL[]], with [subsets] set it yields no feature at all. *)
Theorem apply_no_match n (h : heap) t o sel root b lbl s :
  h !! t = Some o → uses_default_apply (cls o) = true →
  attrs o !! "xpath" = Some (VStr sel) → xpath root sel = Some [] →
  attrs o !! "subsets" = Some (bound_value b) →
  attrs o !! "label" = Some lbl → scalar_str lbl = Some s →
  apply node_str xpath (S n) t root h
  = (Val (match b with None => [s +:+ "[]"] | Some _ => [] end), h).
Proof.
  intros Ht Hc Hsel Hq Hss Hlbl Hs.
  erewrite apply_default_run by done.
  destruct b as [L|]; simpl; [|done]. by rewrite subsets_nil.
Qed.

Lemma apply_no_match_through_Get n (h : heap) g go t o sel root b lbl s :
  h !! g = Some go → cls go = Get → attrs go !! "f" = Some (VRef t) →
  h !! t = Some o → uses_default_apply (cls o) = true →
  attrs o !! "xpath" = Some (VStr sel) → xpath root sel = Some [] →
  attrs o !! "subsets" = Some (bound_value b) →
  attrs o !! "label" = Some lbl → scalar_str lbl = Some s →
  apply node_str xpath (S (S n)) g root h
  = (Val (match b with None => [s +:+ "[]"] | Some _ => [] end), h).
Proof.
  intros Hg Hc Hf Ht Hd Hsel Hq Hss Hlbl Hs.
  erewrite apply_Get_run by done.
  erewrite apply_default_run by done.
  destruct b as [L|]; simpl; [|done]. by rewrite subsets_nil.
Qed.

Lemma directional_run n (h : heap) f fo lbl s xp root res c prefix axis
    (init : loc → M unit) :
  h !! f = Some fo →
  attrs fo !! "label" = Some lbl → scalar_str lbl = Some s →
  attrs fo !! "xpath" = Some (VStr xp) →
  xpath root (xp +:+ axis) = Some res →
  uses_default_apply c = true →
  new c init h
  = (Val (List.length h),
     h ++ [Obj c (<["subsets" := VInt 3]>
                  (<["xpath" := VStr (xp +:+ axis)]>
                   (<["label" := VStr (prefix +:+ s)]> ∅)))]) →
  ∃ h', new c init h = (Val (List.length h), h')
        ∧ directional_post node_str xpath c (prefix +:+ s) (xp +:+ axis) n
            root res (List.length h) h'.
Proof.
  intros Hf Hlbl Hs Hxp Hq Hc Hnew. eexists. split; [exact Hnew|].
  set (o := Obj c _). pose proof (lookup_new h o) as Ho.
  unfold directional_post. split_and!.
  - by rewrite (class_of_run _ _ _ Ho).
  - done.
  - eapply getattr_some; [exact Ho|]. by simplify_map_eq.
  - eapply getattr_some; [exact Ho|]. by simplify_map_eq.
  - eapply getattr_some; [exact Ho|]. by simplify_map_eq.
  - eapply (apply_default_run _ _ _ _ _ _ _ _ (Some 3)); try exact Ho; try done;
      by simplify_map_eq.
  - rewrite subsets_ngrams, ngrams_spec_min. reflexivity.
  - rewrite subsets_ngrams. eapply Forall_impl; [apply ngrams_spec_lengths|].
    intros g Hg. change (Z.to_nat 3) with 3%nat in Hg. simpl in Hg. lia.
Qed.

(** C6. For every inner template [f] (an object with a printable label and
    a string selector), [Left(f)] (resp. [Right(f)]) has the label
    [LEFT-OF-] (resp. [RIGHT-OF-]) followed by [f]'s label, the selector of
    [f] extended with the [preceding-sibling] (resp. [following-sibling])
    step, and [subsets = 3]; its [apply] is the default pipeline, which emits
    the n-grams of the matched siblings of length 1 to [min(3, k)], none
    longer than the [k] siblings available. *)
Theorem Left_Right_contract fuel n (h : heap) f fo lbl s xp root resL resR :
  h !! f = Some fo →
  attrs fo !! "label" = Some lbl → scalar_str lbl = Some s →
  attrs fo !! "xpath" = Some (VStr xp) →
  xpath root (xp +:+ "/preceding-sibling::node") = Some resL →
  xpath root (xp +:+ "/following-sibling::node") = Some resR →
  (∃ h', construct fuel (CallLeft f) h = (Val (List.length h), h')
         ∧ directional_post node_str xpath Left ("LEFT-OF-" +:+ s)
             (xp +:+ "/preceding-sibling::node") n root resL (List.length h) h')
  ∧ (∃ h', construct fuel (CallRight f) h = (Val (List.length h), h')
           ∧ directional_post node_str xpath Right ("RIGHT-OF-" +:+ s)
               (xp +:+ "/following-sibling::node") n root resR (List.length h) h').
Proof.
  intros Hf Hlbl Hs Hxp HqL HqR. split.
  - eapply directional_run; try done. by eapply new_Left_run.
  - eapply directional_run; try done. by eapply new_Right_run.
Qed.

End DefaultClaims.

Lemma apply_no_match_witness :
  apply example_str example_xpath 1 4 () example_heap
  = (Val ["None" +:+ "[]"], example_heap).
Proof.
  eapply (apply_no_match example_str example_xpath 0 example_heap 4 _
            "//node" () None VNone "None");
    vm_compute; reflexivity.
Defined.

Lemma Left_Right_contract_witness :
  (∃ h', construct 0 (CallLeft 0) example_heap = (Val 7%nat, h')
         ∧ directional_post example_str example_xpath Left
             ("LEFT-OF-" +:+ "MENTION")
             (".//node[@cid='5']" +:+ "/preceding-sibling::node") 0 ()
             [7; 8]%nat 7 h')
  ∧ (∃ h', construct 0 (CallRight 0) example_heap = (Val 7%nat, h')
           ∧ directional_post example_str example_xpath Right
               ("RIGHT-OF-" +:+ "MENTION")
               (".//node[@cid='5']" +:+ "/following-sibling::node") 0 ()
               [9]%nat 7 h').
Proof.
  eapply (Left_Right_contract example_str example_xpath 0 0 example_heap 0 _
            (VStr "MENTION") "MENTION" ".//node[@cid='5']" () [7; 8]%nat [9]%nat);
    vm_compute; reflexivity.
Defined.

(** ** The attribute projector *)

Section GetClaims.
Context {node : Type} `{Countable node} {tree : Type}.
Variable node_str : node → string.
Variable xpath : tree → string → option (list node).

(** C5. For every template [f] (an object with a printable label and a
    string selector) and attribute name [a], constructing [Get(f, a)]
    changes [f] itself: its label becomes the upper-cased [a], a hyphen and
    the old label, its selector the old selector followed by [/@a];
    [Get(f, a).apply(root)] is [f.apply(root)] on the changed [f], and so is
    the [apply] of any other wrapper that already referred to [f]; no other
    object changes. *)
Theorem Get_mutates_wrapped fuel n (h : heap) f fo lbl s xp a root :
  h !! f = Some fo →
  attrs fo !! "label" = Some lbl → scalar_str lbl = Some s →
  attrs fo !! "xpath" = Some (VStr xp) →
  ∃ h', construct fuel (CallGet f a) h = (Val (List.length h), h')
    ∧ getattr f "label" h' = (Val (VStr (upper a +:+ "-" +:+ s)), h')
    ∧ getattr f "xpath" h' = (Val (VStr ((xp +:+ "/@") +:+ a)), h')
    ∧ getattr (List.length h) "f" h' = (Val (VRef f), h')
    ∧ apply node_str xpath (S n) (List.length h) root h'
      = apply node_str xpath n f root h'
    ∧ (∀ g go, h !! g = Some go → g ≠ f →
         cls go = Get → attrs go !! "f" = Some (VRef f) →
         apply node_str xpath (S n) g root h' = apply node_str xpath n f root h')
    ∧ (∀ l, l ≠ f → h' !! l = (h ++ [Obj Get (<["f" := VRef f]> ∅)]) !! l).
Proof.
  intros Hf Hlbl Hs Hxp.
  assert (f < List.length h)%nat as Hlt by (by eapply lookup_lt_Some).
  eexists. split; [by eapply new_Get_run|].
  set (o' := Obj (cls fo) _). set (self := Obj Get _).
  assert (<[f:=o']> (h ++ [self]) !! f = Some o') as Hf'.
  { apply list_lookup_insert_eq. rewrite length_app. lia. }
  assert (∀ l, l ≠ f → <[f:=o']> (h ++ [self]) !! l = (h ++ [self]) !! l)
    as Hother.
  { intros l Hl. by rewrite list_lookup_insert_ne. }
  assert (<[f:=o']> (h ++ [self]) !! List.length h = Some self) as Hself.
  { rewrite Hother by lia. apply lookup_new. }
  split_and!.
  - eapply getattr_some; [exact Hf'|]. subst o'. simpl.
    by rewrite lookup_insert_ne, lookup_insert_eq.
  - eapply getattr_some; [exact Hf'|]. subst o'. simpl.
    by rewrite lookup_insert_eq.
  - eapply getattr_some; [exact Hself|]. by simplify_map_eq.
  - eapply apply_Get_run; [exact Hself|done|by simplify_map_eq].
  - intros g go Hg Hne Hc Hgf. eapply apply_Get_run; [|exact Hc|exact Hgf].
    rewrite Hother by done. by apply lookup_old.
  - exact Hother.
Qed.

End GetClaims.

Lemma Get_mutates_wrapped_witness :
  ∃ h', construct 0 (CallGet 0 "word") example_heap = (Val 7%nat, h')
    ∧ getattr 0 "label" h' = (Val (VStr (upper "word" +:+ "-" +:+ "MENTION")), h')
    ∧ getattr 0 "xpath" h'
      = (Val (VStr ((".//node[@cid='5']" +:+ "/@") +:+ "word")), h')
    ∧ getattr 7 "f" h' = (Val (VRef 0), h')
    ∧ apply example_str example_xpath 2 7 () h'
      = apply example_str example_xpath 1 0 () h'
    ∧ (∀ g go, example_heap !! g = Some go → g ≠ 0%nat →
         cls go = Get → attrs go !! "f" = Some (VRef 0) →
         apply example_str example_xpath 2 g () h'
         = apply example_str example_xpath 1 0 () h')
    ∧ (∀ l, l ≠ 0%nat →
         h' !! l = (example_heap ++ [Obj Get (<["f" := VRef 0]> ∅)]) !! l).
Proof.
  eapply (Get_mutates_wrapped example_str example_xpath 0 1 example_heap 0 _
            (VStr "MENTION") "MENTION" ".//node[@cid='5']" "word" ());
    vm_compute; reflexivity.
Defined.

(** ** The mention template *)

Section MentionClaims.
Context {node : Type} `{Countable node} {tree : Type}.
Variable node_str : node → string.
Variable xpath : tree → string → option (list node).

(** [Mention(cid)] has the label [MENTION], the selector on the [cid]
    attribute and [subsets = 100]; its [apply] emits the n-grams of the
    match set of length 1 to [min(n, 100)], which is all of them only when
    the mention has at most 100 nodes. *)
Lemma Mention_contract fuel n (h : heap) cid c root res :
  scalar_str cid = Some c →
  xpath root (".//node[@cid='" +:+ c +:+ "']") = Some res →
  ∃ h', construct fuel (CallMention cid) h = (Val (List.length h), h')
    ∧ getattr (List.length h) "label" h' = (Val (VStr "MENTION"), h')
    ∧ getattr (List.length h) "xpath" h'
      = (Val (VStr (".//node[@cid='" +:+ c +:+ "']")), h')
    ∧ getattr (List.length h) "subsets" h' = (Val (VInt 100), h')
    ∧ apply node_str xpath (S n) (List.length h) root h'
      = (Val (render node_str "MENTION" <$> ngrams_spec res 100), h')
    ∧ ((List.length res ≤ 100)%nat →
       ngrams_spec res 100 = ngrams_spec res (Z.of_nat (List.length res))).
Proof.
  intros Hc Hq. eexists. split; [by eapply new_Mention_run|].
  set (o := Obj Mention _). pose proof (lookup_new h o) as Ho.
  split_and!.
  - eapply getattr_some; [exact Ho|]. by simplify_map_eq.
  - eapply getattr_some; [exact Ho|]. by simplify_map_eq.
  - eapply getattr_some; [exact Ho|]. by simplify_map_eq.
  - rewrite <- subsets_ngrams.
    eapply (apply_default_run _ _ _ _ _ _ _ _ (Some 100)); try exact Ho;
      try done; by simplify_map_eq.
  - intros Hle. unfold ngrams_spec. do 3 f_equal. lia.
Qed.

End MentionClaims.

(** The worked example of the specification: a mention matching [[1; 2]]. *)
Example Mention_two_nodes :
  (t ← construct 0 (CallMention (VInt 5)); apply example_str example_xpath 1 t ()) []
  = (Val ["MENTION[1]"; "MENTION[2]"; "MENTION[1_2]"],
     snd (construct 0 (CallMention (VInt 5)) [])).
Proof. vm_compute. reflexivity. Qed.

(** C4, at a mention of 101 nodes: [Mention(5).apply] emits the n-grams of
    length 1 to 100 only, 5150 features, whereas the contiguous subsequences
    of the match set number 5151; the feature of the whole mention is not
    emitted. *)
Theorem Mention_apply_stops_at_100 :
  ∃ fs h',
    (t ← construct 0 (CallMention (VInt 5)); apply example_str long_xpath 1 t ()) []
    = (Val fs, h')
    ∧ fs = render example_str "MENTION" <$> subsets long_mention 100
    ∧ Z.of_nat (List.length fs) = 5150
    ∧ Z.of_nat (List.length (ngrams_spec long_mention
                               (Z.of_nat (List.length long_mention))))
      = 5151
    ∧ (long_mention ∉ subsets long_mention 100)
    ∧ (render example_str "MENTION" long_mention ∉ fs).
Proof.
  destruct (Mention_contract example_str long_xpath 0 0 [] (VInt 5) "5" ()
              long_mention eq_refl eq_refl)
    as (h' & Hnew & _ & _ & _ & Happ & _).
  eexists _, h'. split.
  { erewrite bind_val by exact Hnew. exact Happ. }
  rewrite <- subsets_ngrams. split; [done|].
  split; [by vm_compute|]. split; [by vm_compute|]. split.
  - intros Hin. rewrite subsets_ngrams in Hin.
    pose proof (ngrams_spec_lengths long_mention 100) as Hlen.
    rewrite Forall_forall in Hlen. apply Hlen in Hin.
    vm_compute in Hin. lia.
  - refine (bool_decide_eq_false_1
              (render example_str "MENTION" long_mention
               ∈ (render example_str "MENTION" <$> subsets long_mention 100)) _).
    vm_compute. reflexivity.
Qed.

(** ** What a completed constructor call leaves behind *)

Lemma bind_inv {A B} (m : M A) (k : A → M B) h b h' :
  (m ≫= k) h = (Val b, h') → ∃ a h1, m h = (Val a, h1) ∧ k a h1 = (Val b, h').
Proof.
  unfold mbind, M_bind. destruct (m h) as [[a|e| |] h1]; try done. eauto.
Qed.

Lemma getattr_inv l name h v h' :
  getattr l name h = (Val v, h') →
  h' = h ∧ ∃ o, h !! l = Some o ∧ attrs o !! name = Some v.
Proof.
  unfold getattr. destruct (h !! l) as [o|]; [|done].
  destruct (attrs o !! name) as [w|] eqn:Hw; [|done].
  intros [= -> ->]. eauto.
Qed.

Lemma setattr_inv l name v h u h' :
  setattr l name v h = (Val u, h') →
  ∃ o, h !! l = Some o ∧ h' = <[l := Obj (cls o) (<[name := v]> (attrs o))]> h.
Proof.
  unfold setattr. destruct (h !! l) as [o|]; [|done]. intros [= _ <-]. eauto.
Qed.

Lemma setattr_new_inv h c a name v u h' :
  setattr (List.length h) name v (h ++ [Obj c a]) = (Val u, h') →
  h' = h ++ [Obj c (<[name := v]> a)].
Proof. rewrite setattr_new. by intros [= _ <-]. Qed.

Lemma pystr_inv fuel v h s h' : pystr fuel v h = (Val s, h') → h' = h.
Proof. intros Hp. pose proof (readonly_pystr fuel v h) as Hro. by rewrite Hp in Hro. Qed.

Lemma pyadd_str_inv a t h v h' :
  pyadd a (VStr t) h = (Val v, h') → h' = h ∧ ∃ s, a = VStr s ∧ v = VStr (s +:+ t).
Proof. destruct a; try done. simpl. intros [= <- <-]. eauto. Qed.

Lemma getattr_old_inv h o l name v h' :
  getattr l name (h ++ [o]) = (Val v, h') → attrs o !! name = None →
  h' = h ++ [o] ∧ ∃ fo, h !! l = Some fo ∧ attrs fo !! name = Some v.
Proof.
  intros (-> & fo & Hl & Hv)%getattr_inv Hnone. split; [done|].
  exists fo. split; [|done].
  apply lookup_app_Some in Hl as [Hl|[_ Hl]]; [done|].
  apply list_lookup_singleton_Some in Hl as [_ ->]. congruence.
Qed.

(** The state of the new object after [Left.__init__] or [Right.__init__]. *)
Lemma directional_inv fuel c prefix axis (h : heap) f t h' :
  new c (λ self,
    lbl ← getattr f "label";
    s ← pystr fuel lbl;
    setattr self "label" (VStr (prefix +:+ s));;
    xp ← getattr f "xpath";
    xp' ← pyadd xp (VStr axis);
    setattr self "xpath" xp';;
    setattr self "subsets" (VInt 3)) h = (Val t, h') →
  ∃ s xp, t = List.length h
    ∧ h' = h ++ [Obj c (<["subsets" := VInt 3]>
                        (<["xpath" := VStr (xp +:+ axis)]>
                         (<["label" := VStr (prefix +:+ s)]> ∅)))].
Proof.
  unfold new. intros Hrun.
  apply bind_inv in Hrun as (self & h0 & [= <- <-] & Hrun).
  apply bind_inv in Hrun as ([] & h7 & Hinit & [= <- <-]).
  apply bind_inv in Hinit as (lbl & h1 & (-> & _)%getattr_inv & Hinit).
  apply bind_inv in Hinit as (s & h2 & ->%pystr_inv & Hinit).
  apply bind_inv in Hinit as ([] & h3 & ->%setattr_new_inv & Hinit).
  apply bind_inv in Hinit as (xp & h4 & (-> & _)%getattr_inv & Hinit).
  apply bind_inv in Hinit as (xp' & h5 & (-> & x & -> & ->)%pyadd_str_inv & Hinit).
  apply bind_inv in Hinit as ([] & h6 & ->%setattr_new_inv & Hinit).
  apply setattr_new_inv in Hinit as ->. eauto.
Qed.

Lemma Mention_inv fuel cid (h : heap) t h' :
  construct fuel (CallMention cid) h = (Val t, h') →
  ∃ c, t = List.length h
    ∧ h' = h ++ [Obj Mention (<["subsets" := VInt 100]>
                              (<["xpath" := VStr (".//node[@cid='" +:+ c +:+ "']")]>
                               (<["label" := VStr "MENTION"]> ∅)))].
Proof.
  unfold construct, new, Mention_init. intros Hrun.
  apply bind_inv in Hrun as (self & h0 & [= <- <-] & Hrun).
  apply bind_inv in Hrun as ([] & h5 & Hinit & [= <- <-]).
  apply bind_inv in Hinit as ([] & h1 & ->%setattr_new_inv & Hinit).
  apply bind_inv in Hinit as (c & h2 & ->%pystr_inv & Hinit).
  apply bind_inv in Hinit as ([] & h3 & ->%setattr_new_inv & Hinit).
  apply setattr_new_inv in Hinit as ->. eauto.
Qed.

Lemma Between_inv fuel f1 f2 (h : heap) t h' :
  construct fuel (CallBetween f1 f2) h = (Val t, h') →
  ∃ s1 s2 x1 x2, t = List.length h
    ∧ h' = h ++ [Obj Between
                   (<["subsets" := VNone]>
                    (<["xpath2" := x2]>
                     (<["xpath1" := x1]>
                      (<["xpath" := VStr "/ancestor::node"]>
                       (<["label" := VStr ("BETWEEN-" +:+ s1 +:+ "-" +:+ s2)]> ∅)))))].
Proof.
  unfold construct, new, Between_init. intros Hrun.
  apply bind_inv in Hrun as (self & h0 & [= <- <-] & Hrun).
  apply bind_inv in Hrun as ([] & h9 & Hinit & [= <- <-]).
  apply bind_inv in Hinit as (l1 & h1 & (-> & _)%getattr_inv & Hinit).
  apply bind_inv in Hinit as (l2 & h2 & (-> & _)%getattr_inv & Hinit).
  apply bind_inv in Hinit as (s1 & h3 & ->%pystr_inv & Hinit).
  apply bind_inv in Hinit as (s2 & h4 & ->%pystr_inv & Hinit).
  apply bind_inv in Hinit as ([] & h5 & ->%setattr_new_inv & Hinit).
  apply bind_inv in Hinit as ([] & h6 & ->%setattr_new_inv & Hinit).
  apply bind_inv in Hinit as (x1 & h7 & (-> & _)%getattr_inv & Hinit).
  apply bind_inv in Hinit as ([] & h8 & ->%setattr_new_inv & Hinit).
  apply bind_inv in Hinit as (x2 & h10 & (-> & _)%getattr_inv & Hinit).
  apply bind_inv in Hinit as ([] & h11 & ->%setattr_new_inv & Hinit).
  apply setattr_new_inv in Hinit as ->. by exists s1, s2, x1, x2.
Qed.

Lemma Get_inv fuel f a (h : heap) t h' :
  construct fuel (CallGet f a) h = (Val t, h') →
  ∃ fo s xp, t = List.length h ∧ h !! f = Some fo
    ∧ h' = <[f := Obj (cls fo)
                   (<["xpath" := VStr ((xp +:+ "/@") +:+ a)]>
                    (<["label" := VStr (upper a +:+ "-" +:+ s)]> (attrs fo)))]>
             (h ++ [Obj Get (<["f" := VRef f]> ∅)]).
Proof.
  unfold construct, new, Get_init. intros Hrun.
  apply bind_inv in Hrun as (self & h0 & [= <- <-] & Hrun).
  apply bind_inv in Hrun as ([] & h9 & Hinit & [= <- <-]).
  apply bind_inv in Hinit as ([] & h1 & ->%setattr_new_inv & Hinit).
  apply bind_inv in Hinit as (lbl & h2 & Hget & Hinit).
  apply getattr_old_inv in Hget as (-> & fo & Hf & Hlbl); [|done].
  assert (f < List.length h)%nat as Hlt by (by eapply lookup_lt_Some).
  set (self := Obj Get _) in *.
  apply bind_inv in Hinit as (s & h3 & ->%pystr_inv & Hinit).
  apply bind_inv in Hinit as (g & h4 & (-> & o & Ho & Hg)%getattr_inv & Hinit).
  rewrite lookup_new in Ho. injection Ho as <-.
  subst self. simpl in Hg. rewrite lookup_insert_eq in Hg. injection Hg as <-.
  set (self := Obj Get _) in *.
  apply bind_inv in Hinit as ([] & h5 & (o & Ho & ->)%setattr_inv & Hinit).
  rewrite (lookup_old _ _ _ _ Hf) in Ho. injection Ho as <-.
  set (o1 := Obj (cls fo) _) in *.
  assert (<[f:=o1]> (h ++ [self]) !! f = Some o1) as Hf1.
  { apply list_lookup_insert_eq. rewrite length_app. lia. }
  apply bind_inv in Hinit as (xp & h6 & (-> & o & Ho & Hxp)%getattr_inv & Hinit).
  apply bind_inv in Hinit as (xp1 & h7 & (-> & x & -> & ->)%pyadd_str_inv & Hinit).
  apply bind_inv in Hinit as (xp2 & h8 & (-> & x2 & [= <-] & ->)%pyadd_str_inv & Hinit).
  apply bind_inv in Hinit as (g & h10 & (-> & o' & Ho' & Hg)%getattr_inv & Hinit).
  rewrite list_lookup_insert_ne, lookup_new in Ho' by lia. injection Ho' as <-.
  subst self. simpl in Hg. rewrite lookup_insert_eq in Hg. injection Hg as <-.
  apply setattr_inv in Hinit as (o2 & Ho2 & ->).
  rewrite Hf1 in Ho2. injection Ho2 as <-.
  rewrite list_insert_insert_eq. exists fo, s, x. subst o1. simpl. done.
Qed.

Lemma append_nonempty_r (s t : string) : t ≠ EmptyString → s +:+ t ≠ EmptyString.
Proof. intros Ht. destruct s; simpl; [done|discriminate]. Qed.

Lemma append_nonempty_l (s t : string) : s ≠ EmptyString → s +:+ t ≠ EmptyString.
Proof. intros Hs. destruct s; simpl; [done|discriminate]. Qed.

(** ** Invariants of constructed templates *)

Lemma has_label_and_selector_new (h : heap) c a s x :
  a !! "label" = Some (VStr s) → a !! "xpath" = Some (VStr x) →
  s ≠ EmptyString → x ≠ EmptyString →
  has_label_and_selector (List.length h) (h ++ [Obj c a]).
Proof.
  intros Hl Hx Hs Hxne. exists (VStr s), (VStr x). split_and!.
  - by eapply getattr_some; [apply lookup_new|].
  - by exists s.
  - by eapply getattr_some; [apply lookup_new|].
  - by exists x.
Qed.

(** C8, as the code has it.  Once the constructor has completed: for
    [Mention], [Left], [Right] and [Between] the label and the selector of
    the new template are non-empty strings; for [Get] this holds of the
    wrapped template, while the [Get] object itself has neither field; the
    base [FeatureTemplate] has the selector [//node] and the label [None]. *)
Theorem constructed_fields fuel c (h : heap) t h' :
  construct fuel c h = (Val t, h') →
  match c with
  | CallFeatureTemplate =>
      getattr t "label" h' = (Val VNone, h')
      ∧ getattr t "xpath" h' = (Val (VStr "//node"), h')
  | CallGet f _ =>
      has_label_and_selector f h'
      ∧ getattr t "label" h' = (Exc (AttributeError "label"), h')
      ∧ getattr t "xpath" h' = (Exc (AttributeError "xpath"), h')
  | _ => has_label_and_selector t h'
  end.
Proof.
  intros Hrun. destruct c as [|cid|f a|f|f|f1 f2].
  - simpl in Hrun. rewrite new_FeatureTemplate_run in Hrun.
    injection Hrun as <- <-.
    split; (eapply getattr_some; [apply lookup_new|by simplify_map_eq]).
  - apply Mention_inv in Hrun as (c & -> & ->).
    eapply has_label_and_selector_new;
      first [by simplify_map_eq | by apply append_nonempty_r].
  - apply Get_inv in Hrun as (fo & s & xp & -> & Hf & ->).
    assert (f < List.length h)%nat as Hlt by (by eapply lookup_lt_Some).
    split_and!.
    + eexists _, _. split_and!.
      * eapply getattr_some.
        { apply list_lookup_insert_eq. rewrite length_app. lia. }
        simpl. by rewrite lookup_insert_ne, lookup_insert_eq.
      * eexists. split; [done|]. apply append_nonempty_r. done.
      * eapply getattr_some.
        { apply list_lookup_insert_eq. rewrite length_app. lia. }
        simpl. by rewrite lookup_insert_eq.
      * eexists. split; [done|]. by apply append_nonempty_l, append_nonempty_r.
    + eapply getattr_none.
      { rewrite list_lookup_insert_ne by lia. apply lookup_new. }
      by simplify_map_eq.
    + eapply getattr_none.
      { rewrite list_lookup_insert_ne by lia. apply lookup_new. }
      by simplify_map_eq.
  - apply directional_inv in Hrun as (s & xp & -> & ->).
    eapply has_label_and_selector_new;
      first [by simplify_map_eq | by apply append_nonempty_r].
  - apply directional_inv in Hrun as (s & xp & -> & ->).
    eapply has_label_and_selector_new;
      first [by simplify_map_eq | by apply append_nonempty_r].
  - apply Between_inv in Hrun as (s1 & s2 & x1 & x2 & -> & ->).
    eapply has_label_and_selector_new;
      first [by simplify_map_eq | by apply append_nonempty_r].
Qed.

Lemma constructed_fields_witness :
  has_label_and_selector 7 (snd (construct 0 (CallLeft 0) example_heap)).
Proof.
  apply (constructed_fields 0 (CallLeft 0) example_heap 7).
  vm_compute. reflexivity.
Defined.

(** C8, as the claim states it, fails on the base class:
    [FeatureTemplate()] has the label [None]. *)
Lemma FeatureTemplate_label_is_None :
  ∃ h', construct 0 CallFeatureTemplate [] = (Val 0%nat, h')
        ∧ getattr 0 "label" h' = (Val VNone, h')
        ∧ ¬ has_label_and_selector 0 h'.
Proof.
  eexists. split; [apply new_FeatureTemplate_run|]. split; [done|].
  intros (lbl & sel & Hl & (s & -> & _) & _). vm_compute in Hl. discriminate.
Qed.

(** ** [__repr__] *)

Lemma repr_missing_attrib k t (h : heap) o :
  h !! t = Some o →
  is_Some (attrs o !! "label") → is_Some (attrs o !! "xpath") →
  attrs o !! "attrib" = None →
  FeatureTemplate_repr (S k) t h = (Exc (AttributeError "attrib"), h).
Proof.
  intros Ht [lbl Hl] [xp Hx] Ha. simpl.
  do 2 (erewrite bind_val by (by eapply getattr_some)).
  erewrite bind_exc; [done|]. by eapply getattr_none.
Qed.

Lemma repr_missing_label k t (h : heap) o :
  h !! t = Some o → attrs o !! "label" = None →
  FeatureTemplate_repr (S k) t h = (Exc (AttributeError "label"), h).
Proof.
  intros Ht Hl. simpl. erewrite bind_exc; [done|]. by eapply getattr_none.
Qed.

(** C10. On every instance, as its constructor leaves it, [__repr__] raises
    [AttributeError]: no constructor assigns [attrib], which [__repr__]
    reads.  (On a [Get] instance, which has no [label] either, the error is
    already raised at [self.label].) *)
Theorem repr_raises_AttributeError fuel k c (h : heap) t h' :
  construct fuel c h = (Val t, h') →
  getattr t "attrib" h' = (Exc (AttributeError "attrib"), h')
  ∧ FeatureTemplate_repr (S k) t h' = (Exc (AttributeError (repr_missing c)), h').
Proof.
  intros Hrun. destruct c as [|cid|f a|f|f|f1 f2].
  - simpl in Hrun. rewrite new_FeatureTemplate_run in Hrun.
    injection Hrun as <- <-. split.
    + eapply getattr_none; [apply lookup_new|by simplify_map_eq].
    + eapply repr_missing_attrib; [apply lookup_new|..]; by simplify_map_eq.
  - apply Mention_inv in Hrun as (c & -> & ->). split.
    + eapply getattr_none; [apply lookup_new|by simplify_map_eq].
    + eapply repr_missing_attrib; [apply lookup_new|..]; by simplify_map_eq.
  - apply Get_inv in Hrun as (fo & s & xp & -> & Hf & ->).
    assert (f < List.length h)%nat as Hlt by (by eapply lookup_lt_Some).
    set (self := Obj Get _).
    assert (<[f:=Obj (cls fo)
                   (<["xpath" := VStr ((xp +:+ "/@") +:+ a)]>
                    (<["label" := VStr (upper a +:+ "-" +:+ s)]> (attrs fo)))]>
              (h ++ [self]) !! List.length h = Some self) as Hself.
    { rewrite list_lookup_insert_ne by lia. apply lookup_new. }
    split.
    + eapply getattr_none; [exact Hself|by simplify_map_eq].
    + eapply repr_missing_label; [exact Hself|by simplify_map_eq].
  - apply directional_inv in Hrun as (s & xp & -> & ->). split.
    + eapply getattr_none; [apply lookup_new|by simplify_map_eq].
    + eapply repr_missing_attrib; [apply lookup_new|..]; by simplify_map_eq.
  - apply directional_inv in Hrun as (s & xp & -> & ->). split.
    + eapply getattr_none; [apply lookup_new|by simplify_map_eq].
    + eapply repr_missing_attrib; [apply lookup_new|..]; by simplify_map_eq.
  - apply Between_inv in Hrun as (s1 & s2 & x1 & x2 & -> & ->). split.
    + eapply getattr_none; [apply lookup_new|by simplify_map_eq].
    + eapply repr_missing_attrib; [apply lookup_new|..]; by simplify_map_eq.
Qed.

Lemma repr_raises_AttributeError_witness :
  getattr 7 "attrib" (snd (construct 0 (CallBetween 0 1) example_heap))
  = (Exc (AttributeError "attrib"), snd (construct 0 (CallBetween 0 1) example_heap))
  ∧ FeatureTemplate_repr 1 7 (snd (construct 0 (CallBetween 0 1) example_heap))
    = (Exc (AttributeError (repr_missing (CallBetween 0 1))),
       snd (construct 0 (CallBetween 0 1) example_heap)).
Proof.
  apply (repr_raises_AttributeError 0 0 (CallBetween 0 1) example_heap 7).
  vm_compute. reflexivity.
Defined.

(** * Further properties of the code *)

(** ** [subsets] *)

Lemma ngrams_spec_elem_of {A} (x : list A) (L : Z) g :
  g ∈ ngrams_spec x L
  ↔ ∃ len off, (1 ≤ len ≤ List.length x `min` Z.to_nat L)%nat
               ∧ (off + len ≤ List.length x)%nat
               ∧ g = take len (drop off x).
Proof.
  unfold ngrams_spec. split.
  - intros Hg.
    apply list_elem_of_In, in_concat in Hg as (gs & Hgs & Hg).
    apply list_elem_of_In, list_elem_of_fmap in Hgs as (len & -> & Hlen).
    apply list_elem_of_In, list_elem_of_fmap in Hg as (off & -> & Hoff).
    apply elem_of_seq in Hlen. apply elem_of_seq in Hoff.
    exists len, off. split_and!; [lia..|done].
  - intros (len & off & Hlen & Hoff & ->).
    apply list_elem_of_In, in_concat.
    exists ((λ off, take len (drop off x)) <$> seq 0 (List.length x - len + 1)).
    split; apply list_elem_of_In, list_elem_of_fmap.
    + exists len. split; [done|]. apply elem_of_seq. lia.
    + exists off. split; [done|]. apply elem_of_seq. lia.
Qed.

(** X1. [subsets(x, L)] emits exactly the non-empty contiguous runs of [x]
    of length at most [L]: nothing else is emitted and none is left out. *)
Theorem subsets_elem_of {A} (x : list A) (L : Z) (g : list A) :
  g ∈ subsets x L
  ↔ g ≠ [] ∧ Z.of_nat (List.length g) ≤ L ∧ contiguous_in g x.
Proof.
  rewrite subsets_ngrams, ngrams_spec_elem_of. split.
  - intros (len & off & Hlen & Hoff & ->).
    assert (List.length (take len (drop off x)) = len) as Hl.
    { rewrite length_take, length_drop. lia. }
    split_and!.
    + intros Hnil. rewrite Hnil in Hl. simpl in Hl. lia.
    + rewrite Hl. lia.
    + exists (take off x), (drop len (drop off x)).
      by rewrite (take_drop len), (take_drop off).
  - intros (Hne & Hlen & pre & post & ->).
    exists (List.length g), (List.length pre). split_and!.
    + destruct g; [done|]. simpl. lia.
    + rewrite !length_app. lia.
    + rewrite !length_app. lia.
    + by rewrite drop_app_length, take_app_length.
Qed.

Lemma ngrams_count_closed (n : nat) (m : nat) :
  (m ≤ n)%nat →
  (2 * sum_list ((λ l, n - l + 1) <$> seq 1 m) = m * (2 * n - m + 1))%nat.
Proof.
  induction m as [|m IH]; intros Hm; [done|].
  rewrite seq_S, fmap_app, sum_list_with_app. simpl.
  specialize (IH ltac:(lia)). nia.
Qed.

(** X2. The number of subsequences emitted has the closed form
    [m (2n - m + 1) / 2], where [n] is the length of [x] and [m] is the
    bound clamped to [0..n]. *)
Theorem subsets_count_closed {A} (x : list A) (L : Z) :
  let n := List.length x in
  let m := (n `min` Z.to_nat L)%nat in
  (2 * List.length (subsets x L) = m * (2 * n - m + 1))%nat.
Proof.
  intros n m. rewrite subsets_ngrams. unfold ngrams_spec.
  rewrite length_concat_sum, <- list_fmap_compose.
  rewrite <- (ngrams_count_closed n m) by lia. f_equal. f_equal.
  apply list_fmap_ext. intros i l Hl. apply lookup_seq in Hl as [-> Hi].
  simpl. by rewrite length_fmap, length_seq.
Qed.

Lemma unigram_block {A} (x : list A) :
  (λ off, take 1 (drop off x)) <$> seq 0 (List.length x) = (λ a, [a]) <$> x.
Proof.
  induction x as [|a x IH]; [done|].
  simpl. f_equal. rewrite <- fmap_S_seq, <- list_fmap_compose. exact IH.
Qed.

(** X3. With a bound of at least 1, the first [len(x)] subsequences emitted
    are the single elements of [x], in the order of [x]. *)
Theorem subsets_unigrams_first {A} (x : list A) (L : Z) :
  1 ≤ L →
  take (List.length x) (subsets x L) = (λ a, [a]) <$> x.
Proof.
  intros HL. rewrite subsets_ngrams. unfold ngrams_spec.
  destruct x as [|a x']; [done|].
  set (x := a :: x'). assert (List.length x = S (List.length x')) as Hn by done.
  destruct (List.length x `min` Z.to_nat L)%nat as [|m] eqn:Hm; [lia|].
  rewrite <- cons_seq, fmap_cons, concat_cons.
  replace (List.length x - 1 + 1)%nat with (List.length x) by lia.
  rewrite unigram_block.
  rewrite take_app_length'; [done|]. by rewrite length_fmap.
Qed.

Lemma subsets_unigrams_first_witness :
  take (List.length [7; 8; 9]%nat) (subsets [7; 8; 9]%nat 2)
  = (λ a, [a]) <$> [7; 8; 9]%nat.
Proof. apply (subsets_unigrams_first [7; 8; 9]%nat 2). lia. Defined.

(** X4. When the bound is at least the length of a non-empty [x], the last
    subsequence emitted is [x] itself. *)
Theorem subsets_whole_last {A} (x : list A) (L : Z) :
  x ≠ [] → Z.of_nat (List.length x) ≤ L →
  last (subsets x L) = Some x.
Proof.
  intros Hne HL. rewrite subsets_ngrams. unfold ngrams_spec.
  replace (List.length x `min` Z.to_nat L)%nat with (List.length x) by lia.
  destruct (List.length x) as [|k] eqn:Hk; [by destruct x|].
  rewrite seq_S, fmap_app, concat_app. simpl.
  replace (k - k + 1)%nat with 1%nat by lia. simpl.
  rewrite last_snoc. f_equal. apply take_ge. lia.
Qed.

Lemma subsets_whole_last_witness :
  last (subsets [7; 8; 9]%nat 100) = Some [7; 8; 9]%nat.
Proof. apply (subsets_whole_last [7; 8; 9]%nat 100); [done|simpl; lia]. Defined.

(** ** Composition of templates *)

Lemma heap_after_Get (h : heap) f o' self :
  (f < List.length h)%nat →
  <[f:=o']> (h ++ [self]) !! f = Some o'
  ∧ <[f:=o']> (h ++ [self]) !! List.length h = Some self
  ∧ ∀ l, l ≠ f → <[f:=o']> (h ++ [self]) !! l = (h ++ [self]) !! l.
Proof.
  intros Hlt. split_and!.
  - apply list_lookup_insert_eq. rewrite length_app. lia.
  - rewrite list_lookup_insert_ne by lia. apply lookup_new.
  - intros l Hl. by rewrite list_lookup_insert_ne.
Qed.

Section Composition.
Context {node : Type} `{Countable node} {tree : Type}.
Variable node_str : node → string.
Variable xpath : tree → string → option (list node).

(** X5. [Mention(cid).apply(root)] emits one feature [MENTION[...]] per
    subsequence given by [subsets(res, 100)] of the nodes [res] carrying the
    identifier: every non-empty contiguous run of at most 100 mention nodes
    has its feature. *)
Theorem Mention_apply_ngrams fuel n (h : heap) cid c root res :
  scalar_str cid = Some c →
  xpath root (".//node[@cid='" +:+ c +:+ "']") = Some res →
  ∃ fs h',
    (t ← construct fuel (CallMention cid); apply node_str xpath (S n) t root) h
    = (Val fs, h')
    ∧ fs = render node_str "MENTION" <$> subsets res 100
    ∧ ∀ g, g ≠ [] → contiguous_in g res → (List.length g ≤ 100)%nat →
           render node_str "MENTION" g ∈ fs.
Proof.
  intros Hc Hq.
  destruct (Mention_contract node_str xpath fuel n h cid c root res Hc Hq)
    as (h' & Hnew & _ & _ & _ & Happ & _).
  eexists _, h'. split; [|split; [reflexivity|]].
  - erewrite bind_val by exact Hnew. rewrite Happ. by rewrite subsets_ngrams.
  - intros g Hne Hg Hlen. apply list_elem_of_fmap. exists g. split; [done|].
    rewrite subsets_ngrams, ngrams_spec_elem_of.
    destruct Hg as (pre & post & ->).
    exists (List.length g), (List.length pre). split_and!.
    + destruct g; [done|]. simpl. lia.
    + rewrite !length_app. lia.
    + rewrite !length_app. lia.
    + by rewrite drop_app_length, take_app_length.
Qed.

(** X6. [Get(f, a)] keeps the grouping of the template it wraps: for [f] of
    the default pipeline with bound [b], [Get(f, a).apply(root)] emits the
    groups of the values answered by [f]'s selector extended with [/@a],
    each under the label [A-LABEL]. *)
Theorem Get_apply_projects fuel n (h : heap) f fo lbl s xp a b root res :
  h !! f = Some fo → uses_default_apply (cls fo) = true →
  attrs fo !! "label" = Some lbl → scalar_str lbl = Some s →
  attrs fo !! "xpath" = Some (VStr xp) →
  attrs fo !! "subsets" = Some (bound_value b) →
  xpath root ((xp +:+ "/@") +:+ a) = Some res →
  ∃ h',
    (g ← construct fuel (CallGet f a); apply node_str xpath (S (S n)) g root) h
    = (Val (render node_str (upper a +:+ "-" +:+ s) <$> groups b res), h').
Proof.
  intros Hf Hc Hlbl Hs Hxp Hss Hq.
  assert (f < List.length h)%nat as Hlt by (by eapply lookup_lt_Some).
  eexists. simpl construct. erewrite bind_val by (by eapply new_Get_run).
  set (o' := Obj (cls fo) _). set (self := Obj Get _).
  destruct (heap_after_Get h f o' self Hlt) as (Hf' & Hself & _).
  erewrite apply_Get_run; [|exact Hself|done|by simplify_map_eq].
  eapply apply_default_run
    with (sel := (xp +:+ "/@") +:+ a) (b := b)
         (lbl := VStr (upper a +:+ "-" +:+ s));
    [exact Hf'|done| |exact Hq| | |done]; subst o'; simpl.
  - by rewrite lookup_insert_eq.
  - by rewrite !lookup_insert_ne.
  - by rewrite lookup_insert_ne, lookup_insert_eq.
Qed.

(** X7. [FeatureTemplate().apply(root)] emits exactly one feature, over all
    the nodes answered by [//node], and its label is the printed [None]. *)
Theorem FeatureTemplate_apply_all_nodes fuel n (h : heap) root res :
  xpath root "//node" = Some res →
  ∃ h',
    (t ← construct fuel CallFeatureTemplate; apply node_str xpath (S n) t root) h
    = (Val ["None[" +:+ join "_" (node_str <$> res) +:+ "]"], h').
Proof.
  intros Hq. eexists. simpl construct.
  erewrite bind_val by apply new_FeatureTemplate_run.
  erewrite apply_default_run with (b := None) (lbl := VNone);
    try apply lookup_new; try done; by simplify_map_eq.
Qed.

End Composition.

Lemma Mention_apply_ngrams_witness :
  ∃ fs h',
    (t ← construct 0 (CallMention (VInt 5));
     apply example_str example_xpath 1 t ()) []
    = (Val fs, h')
    ∧ fs = render example_str "MENTION" <$> subsets [1; 2]%nat 100
    ∧ ∀ g, g ≠ [] → contiguous_in g [1; 2]%nat → (List.length g ≤ 100)%nat →
           render example_str "MENTION" g ∈ fs.
Proof.
  apply (Mention_apply_ngrams example_str example_xpath 0 0 [] (VInt 5) "5" ());
    vm_compute; reflexivity.
Defined.

Lemma Get_apply_projects_witness :
  ∃ h',
    (g ← construct 0 (CallGet 0 "word");
     apply example_str strict_xpath 2 g ()) example_heap
    = (Val (render example_str (upper "word" +:+ "-" +:+ "MENTION")
              <$> groups (Some 100) [31; 32]%nat), h').
Proof.
  eapply (Get_apply_projects example_str strict_xpath 0 0 example_heap 0 _
            (VStr "MENTION") "MENTION" ".//node[@cid='5']" "word" (Some 100) ());
    vm_compute; reflexivity.
Defined.

Lemma FeatureTemplate_apply_all_nodes_witness :
  ∃ h',
    (t ← construct 0 CallFeatureTemplate; apply example_str strict_xpath 1 t ()) []
    = (Val ["None[" +:+ join "_" (example_str <$> [10; 11; 12]%nat) +:+ "]"], h').
Proof.
  apply (FeatureTemplate_apply_all_nodes example_str strict_xpath 0 0 [] ()).
  vm_compute. reflexivity.
Defined.

(** ** What constructors do to the heap *)

(** The new object of a completed constructor call other than [Get]. *)
Lemma construct_new_object fuel c (h : heap) t h' :
  is_Get_call c = false →
  construct fuel c h = (Val t, h') →
  ∃ o lbl s sel,
    t = List.length h ∧ h' = h ++ [o]
    ∧ cls o ≠ Get
    ∧ attrs o !! "label" = Some lbl ∧ scalar_str lbl = Some s
    ∧ attrs o !! "xpath" = Some (VStr sel).
Proof.
  intros Hc Hrun. destruct c as [|cid|f a|f|f|f1 f2]; try done.
  - simpl in Hrun. rewrite new_FeatureTemplate_run in Hrun.
    injection Hrun as <- <-.
    eexists _, VNone, _, _. split_and!; try done; by simplify_map_eq.
  - apply Mention_inv in Hrun as (c & -> & ->).
    eexists _, (VStr _), _, _. split_and!; try done; by simplify_map_eq.
  - apply directional_inv in Hrun as (s & xp & -> & ->).
    eexists _, (VStr _), _, _. split_and!; try done; by simplify_map_eq.
  - apply directional_inv in Hrun as (s & xp & -> & ->).
    eexists _, (VStr _), _, _. split_and!; try done; by simplify_map_eq.
  - apply Between_inv in Hrun as (s1 & s2 & x1 & x2 & -> & ->).
    eexists _, (VStr _), _, _. split_and!; try done; by simplify_map_eq.
Qed.

(** X8. A completed constructor call allocates exactly one object, at the
    next address; every object that existed before is left as it was,
    except that [Get(f, a)] rewrites the [label] and [xpath] of [f] (and
    nothing else of [f]: its class and its other attributes stay). *)
Theorem constructors_frame fuel c (h : heap) t h' :
  construct fuel c h = (Val t, h') →
  t = List.length h
  ∧ List.length h' = S (List.length h)
  ∧ (∀ l o, h !! l = Some o → mutated_by c ≠ Some l → h' !! l = Some o)
  ∧ (∀ f fo, mutated_by c = Some f → h !! f = Some fo →
       ∃ fo', h' !! f = Some fo' ∧ cls fo' = cls fo
              ∧ ∀ name, name ≠ "label" → name ≠ "xpath" →
                        attrs fo' !! name = attrs fo !! name).
Proof.
  intros Hrun. destruct (is_Get_call c) eqn:Hc.
  - destruct c as [| |f a| | |]; try done.
    apply Get_inv in Hrun as (fo & s & xp & -> & Hf & ->).
    assert (f < List.length h)%nat as Hlt by (by eapply lookup_lt_Some).
    edestruct (heap_after_Get h f) as (Hf' & Hself & Hother); [exact Hlt|].
    split_and!.
    + done.
    + rewrite length_insert, length_app. simpl. lia.
    + intros l o Hl Hne. rewrite Hother by (simpl in Hne; congruence).
      by apply lookup_old.
    + intros f0 fo0 [= <-] Hf0. rewrite Hf in Hf0. injection Hf0 as <-.
      eexists. split; [exact Hf'|]. split; [done|].
      intros name Hn1 Hn2. simpl. by rewrite !lookup_insert_ne.
  - destruct (construct_new_object _ _ _ _ _ Hc Hrun)
      as (o & lbl & s & sel & -> & -> & _).
    split_and!.
    + done.
    + rewrite length_app. simpl. lia.
    + intros l o' Hl _. by apply lookup_old.
    + intros f fo Hm. by destruct c.
Qed.

Lemma constructors_frame_witness :
  7%nat = List.length example_heap
  ∧ List.length (snd (construct 0 (CallGet 0 "word") example_heap))
    = S (List.length example_heap)
  ∧ (∀ l o, example_heap !! l = Some o →
       mutated_by (CallGet 0 "word") ≠ Some l →
       snd (construct 0 (CallGet 0 "word") example_heap) !! l = Some o)
  ∧ (∀ f fo, mutated_by (CallGet 0 "word") = Some f →
       example_heap !! f = Some fo →
       ∃ fo', snd (construct 0 (CallGet 0 "word") example_heap) !! f = Some fo'
              ∧ cls fo' = cls fo
              ∧ ∀ name, name ≠ "label" → name ≠ "xpath" →
                        attrs fo' !! name = attrs fo !! name).
Proof.
  apply (constructors_frame 0 (CallGet 0 "word") example_heap 7).
  vm_compute. reflexivity.
Defined.

(** X9. Every template built by a constructor other than [Get] can be the
    inner template of any constructor: wrapping it in [Left], [Right],
    [Get] or [Between] completes. *)
Theorem constructed_is_wrappable fuel fuel' c (h : heap) t h' a :
  is_Get_call c = false →
  construct fuel c h = (Val t, h') →
  (∃ h'', construct fuel' (CallLeft t) h' = (Val (S t), h''))
  ∧ (∃ h'', construct fuel' (CallRight t) h' = (Val (S t), h''))
  ∧ (∃ h'', construct fuel' (CallGet t a) h' = (Val (S t), h''))
  ∧ (∃ h'', construct fuel' (CallBetween t t) h' = (Val (S t), h'')).
Proof.
  intros Hc Hrun.
  destruct (construct_new_object _ _ _ _ _ Hc Hrun)
    as (o & lbl & s & sel & -> & -> & _ & Hlbl & Hs & Hsel).
  pose proof (lookup_new h o) as Ho.
  assert (S (List.length h) = List.length (h ++ [o])) as ->
    by (rewrite length_app; simpl; lia).
  split_and!; eexists; simpl construct.
  - by eapply new_Left_run.
  - by eapply new_Right_run.
  - by eapply new_Get_run.
  - by eapply new_Between_run.
Qed.

Lemma constructed_is_wrappable_witness :
  (∃ h'', construct 0 (CallLeft 7) (snd (construct 0 (CallRight 0) example_heap))
          = (Val 8%nat, h''))
  ∧ (∃ h'', construct 0 (CallRight 7) (snd (construct 0 (CallRight 0) example_heap))
            = (Val 8%nat, h''))
  ∧ (∃ h'', construct 0 (CallGet 7 "pos") (snd (construct 0 (CallRight 0) example_heap))
            = (Val 8%nat, h''))
  ∧ (∃ h'', construct 0 (CallBetween 7 7) (snd (construct 0 (CallRight 0) example_heap))
            = (Val 8%nat, h'')).
Proof.
  apply (constructed_is_wrappable 0 0 (CallRight 0) example_heap 7);
    vm_compute; reflexivity.
Defined.

Lemma getattr_missing_old (h : heap) o g go name :
  h !! g = Some go → attrs go !! name = None →
  getattr g name (h ++ [o]) = (Exc (AttributeError name), h ++ [o]).
Proof. intros Hg Hn. eapply getattr_none; [by apply lookup_old|done]. Qed.

(** X10. A [Get] instance cannot be an inner template: [Left], [Right],
    [Get] and [Between] (on either side) raise [AttributeError] for
    [label] when given one, since [Get.__init__] sets no [label]. *)
Theorem Get_instance_not_wrappable fuel fuel' f a (h : heap) g h' a' x xo :
  construct fuel (CallGet f a) h = (Val g, h') →
  h' !! x = Some xo →
  (∃ h'', construct fuel' (CallLeft g) h' = (Exc (AttributeError "label"), h''))
  ∧ (∃ h'', construct fuel' (CallRight g) h' = (Exc (AttributeError "label"), h''))
  ∧ (∃ h'', construct fuel' (CallGet g a') h' = (Exc (AttributeError "label"), h''))
  ∧ (∃ h'', construct fuel' (CallBetween g x) h' = (Exc (AttributeError "label"), h''))
  ∧ (∃ h'', construct fuel' (CallBetween x g) h' = (Exc (AttributeError "label"), h'')).
Proof.
  intros Hrun Hx.
  apply Get_inv in Hrun as (fo & s & xp & -> & Hf & ->).
  assert (f < List.length h)%nat as Hlt by (by eapply lookup_lt_Some).
  edestruct (heap_after_Get h f) as (_ & Hself & _); [exact Hlt|].
  set (h' := <[f:=_]> _) in *.
  assert (attrs (Obj Get (<["f" := VRef f]> ∅)) !! "label" = None) as Hnone
    by by simplify_map_eq.
  split_and!; eexists; simpl construct; unfold new.
  - erewrite bind_val by reflexivity. unfold Left_init.
    rewrite !bind_assoc. erewrite bind_exc; [done|].
    by eapply getattr_missing_old.
  - erewrite bind_val by reflexivity. unfold Right_init.
    rewrite !bind_assoc. erewrite bind_exc; [done|].
    by eapply getattr_missing_old.
  - erewrite bind_val by reflexivity. unfold Get_init.
    mstep_by ltac:(apply setattr_new). cbv beta. rewrite ?bind_assoc.
    erewrite bind_exc; [done|]. by eapply getattr_missing_old.
  - erewrite bind_val by reflexivity. unfold Between_init.
    rewrite !bind_assoc. erewrite bind_exc; [done|].
    by eapply getattr_missing_old.
  - erewrite bind_val by reflexivity. unfold Between_init.
    rewrite !bind_assoc.
    destruct (attrs xo !! "label") as [lx|] eqn:Hlx.
    + mstep_by ltac:(eapply getattr_some; [by apply lookup_old|done]).
      cbv beta. rewrite ?bind_assoc.
      erewrite bind_exc; [done|]. by eapply getattr_missing_old.
    + erewrite bind_exc; [done|]. by eapply getattr_missing_old.
Qed.

Lemma Get_instance_not_wrappable_witness :
  (∃ h'', construct 0 (CallLeft 7) (snd (construct 0 (CallGet 0 "word") example_heap))
          = (Exc (AttributeError "label"), h''))
  ∧ (∃ h'', construct 0 (CallRight 7) (snd (construct 0 (CallGet 0 "word") example_heap))
            = (Exc (AttributeError "label"), h''))
  ∧ (∃ h'', construct 0 (CallGet 7 "pos") (snd (construct 0 (CallGet 0 "word") example_heap))
            = (Exc (AttributeError "label"), h''))
  ∧ (∃ h'', construct 0 (CallBetween 7 1) (snd (construct 0 (CallGet 0 "word") example_heap))
            = (Exc (AttributeError "label"), h''))
  ∧ (∃ h'', construct 0 (CallBetween 1 7) (snd (construct 0 (CallGet 0 "word") example_heap))
            = (Exc (AttributeError "label"), h'')).
Proof.
  eapply (Get_instance_not_wrappable 0 0 0 "word" example_heap 7 _ "pos" 1);
    vm_compute; reflexivity.
Defined.

Section GetTwice.
Context {node : Type} `{Countable node} {tree : Type}.
Variable node_str : node → string.
Variable xpath : tree → string → option (list node).

(** X11. Wrapping the same template [f] in [Get] twice stacks the two
    changes on [f]: its label becomes [B-A-LABEL], its selector ends in
    [/@a/@b], and from then on the first wrapper behaves exactly like the
    second. *)
Theorem Get_twice fuel n (h : heap) f fo lbl s xp a b root :
  h !! f = Some fo →
  attrs fo !! "label" = Some lbl → scalar_str lbl = Some s →
  attrs fo !! "xpath" = Some (VStr xp) →
  ∃ h2,
    (g1 ← construct fuel (CallGet f a);
     g2 ← construct fuel (CallGet f b);
     mret (g1, g2)) h
    = (Val (List.length h, S (List.length h)), h2)
    ∧ getattr f "label" h2
      = (Val (VStr (upper b +:+ "-" +:+ (upper a +:+ "-" +:+ s))), h2)
    ∧ getattr f "xpath" h2
      = (Val (VStr ((((xp +:+ "/@") +:+ a) +:+ "/@") +:+ b)), h2)
    ∧ apply node_str xpath (S n) (List.length h) root h2
      = apply node_str xpath (S n) (S (List.length h)) root h2.
Proof.
  intros Hf Hlbl Hs Hxp.
  assert (f < List.length h)%nat as Hlt by (by eapply lookup_lt_Some).
  set (o1 := Obj (cls fo)
               (<["xpath" := VStr ((xp +:+ "/@") +:+ a)]>
                (<["label" := VStr (upper a +:+ "-" +:+ s)]> (attrs fo)))).
  set (self1 := Obj Get (<["f" := VRef f]> ∅)).
  set (h1 := <[f:=o1]> (h ++ [self1])).
  destruct (heap_after_Get h f o1 self1 Hlt) as (Hf1 & Hself1 & _).
  assert (List.length h1 = S (List.length h)) as Hlen1.
  { unfold h1. rewrite length_insert, length_app. simpl. lia. }
  assert (f < List.length h1)%nat as Hlt1 by lia.
  eexists. split_and!.
  - simpl construct. erewrite bind_val by (by eapply new_Get_run).
    fold o1 self1 h1.
    erewrite bind_val.
    2:{ eapply new_Get_run with (lbl := VStr (upper a +:+ "-" +:+ s));
          [exact Hf1| | |]; try done; unfold o1; simpl.
        - by rewrite lookup_insert_ne, lookup_insert_eq.
        - by rewrite lookup_insert_eq. }
    rewrite Hlen1. reflexivity.
  - destruct (heap_after_Get h1 f
                (Obj (cls o1)
                   (<["xpath" := VStr ((((xp +:+ "/@") +:+ a) +:+ "/@") +:+ b)]>
                    (<["label" := VStr (upper b +:+ "-" +:+ (upper a +:+ "-" +:+ s))]>
                     (attrs o1))))
                (Obj Get (<["f" := VRef f]> ∅)) Hlt1) as (Hf2 & _ & _).
    eapply getattr_some; [exact Hf2|]. simpl.
    by rewrite lookup_insert_ne, lookup_insert_eq.
  - edestruct (heap_after_Get h1 f) as (Hf2 & _ & _); [exact Hlt1|].
    eapply getattr_some; [exact Hf2|]. simpl. by rewrite lookup_insert_eq.
  - edestruct (heap_after_Get h1 f) as (_ & Hself2 & Hother); [exact Hlt1|].
    rewrite Hlen1 in Hself2.
    erewrite (apply_Get_run _ _ _ _ (List.length h));
      [|rewrite Hother by lia; apply lookup_old; exact Hself1
       |done|by simplify_map_eq].
    erewrite (apply_Get_run _ _ _ _ (S (List.length h)));
      [|exact Hself2|done|by simplify_map_eq].
    done.
Qed.

End GetTwice.

Lemma Get_twice_witness :
  ∃ h2,
    (g1 ← construct 0 (CallGet 0 "word");
     g2 ← construct 0 (CallGet 0 "pos");
     mret (g1, g2)) example_heap
    = (Val (List.length example_heap, S (List.length example_heap)), h2)
    ∧ getattr 0 "label" h2
      = (Val (VStr (upper "pos" +:+ "-" +:+ (upper "word" +:+ "-" +:+ "MENTION"))), h2)
    ∧ getattr 0 "xpath" h2
      = (Val (VStr ((((".//node[@cid='5']" +:+ "/@") +:+ "word") +:+ "/@") +:+ "pos")), h2)
    ∧ apply example_str strict_xpath 2 (List.length example_heap) () h2
      = apply example_str strict_xpath 2 (S (List.length example_heap)) () h2.
Proof.
  eapply (Get_twice example_str strict_xpath 0 1 example_heap 0 _
            (VStr "MENTION") "MENTION" ".//node[@cid='5']" "word" "pos" ());
    vm_compute; reflexivity.
Defined.

(** ** What [apply] reads *)

Lemma determined_pure {A} t o (m : M A) r :
  (∀ h, m h = (r, h)) → determined_by t o m.
Proof. intros Hm. exists r. auto. Qed.

Lemma determined_bind {A B} t o (m : M A) (k : A → M B) :
  determined_by t o m →
  (∀ a, (∀ h : heap, h !! t = Some o → m h = (Val a, h)) → determined_by t o (k a)) →
  determined_by t o (m ≫= k).
Proof.
  intros [r Hm] Hk. destruct r as [a|e| |].
  - destruct (Hk a Hm) as [r' Hk']. exists r'. intros h Hh.
    erewrite bind_val by (by apply Hm). by apply Hk'.
  - exists (Exc e). intros h Hh. unfold mbind, M_bind. by rewrite (Hm h Hh).
  - exists Fuel. intros h Hh. unfold mbind, M_bind. by rewrite (Hm h Hh).
  - exists Dangling. intros h Hh. unfold mbind, M_bind. by rewrite (Hm h Hh).
Qed.

Lemma determined_getattr t o name : determined_by t o (getattr t name).
Proof. eexists. intros h Hh. by apply getattr_run. Qed.

Lemma determined_class_of t o : determined_by t o (class_of t).
Proof. eexists. intros h Hh. by apply class_of_run. Qed.

Lemma determined_pyadd t o a b : determined_by t o (pyadd a b).
Proof. destruct a, b; by eapply determined_pure. Qed.

Lemma determined_mapM {A B} t o (f : A → M B) xs :
  (∀ x, determined_by t o (f x)) → determined_by t o (mapM f xs).
Proof.
  intros Hf. induction xs as [|x xs IH]; simpl.
  - by eapply determined_pure.
  - apply determined_bind; [done|]. intros y _.
    apply determined_bind; [done|]. intros ys _. by eapply determined_pure.
Qed.

(** The attribute read back from any heap holding [o] at [t] is [o]'s. *)
Lemma getattr_own t o name v :
  (∀ h : heap, h !! t = Some o → getattr t name h = (Val v, h)) →
  attrs o !! name = Some v.
Proof.
  intros Hget.
  assert ((replicate t o ++ [o]) !! t = Some o) as Hh.
  { rewrite lookup_app_r by (rewrite length_replicate; lia).
    by rewrite length_replicate, Nat.sub_diag. }
  specialize (Hget _ Hh). rewrite (getattr_run _ _ _ _ Hh) in Hget.
  destruct (attrs o !! name); by simplify_eq.
Qed.

Section Locality.
Context {node : Type} `{Countable node} {tree : Type}.
Variable node_str : node → string.
Variable xpath : tree → string → option (list node).

Lemma determined_call_xpath t o root sel :
  determined_by t o (call_xpath xpath root sel).
Proof.
  destruct sel as [|s| |]; try by eapply determined_pure.
  unfold call_xpath. destruct (xpath root s); by eapply determined_pure.
Qed.

Lemma determined_feat_str fuel t o lbl s g :
  attrs o !! "label" = Some lbl → scalar_str lbl = Some s →
  determined_by t o (FeatureTemplate_feat_str node_str fuel t g).
Proof.
  intros Hlbl Hs. eexists. intros h Hh. by eapply feat_str_run.
Qed.

Lemma determined_FeatureTemplate_apply fuel t o lbl s root :
  attrs o !! "label" = Some lbl → scalar_str lbl = Some s →
  determined_by t o (FeatureTemplate_apply node_str xpath fuel t root).
Proof.
  intros Hlbl Hs. unfold FeatureTemplate_apply.
  apply determined_bind; [apply determined_getattr|]. intros xp _.
  apply determined_bind; [apply determined_call_xpath|]. intros res _.
  apply determined_bind; [apply determined_getattr|]. intros ss _.
  apply determined_bind.
  - destruct ss; by eapply determined_pure.
  - intros gs _. apply determined_mapM. intros g.
    by eapply determined_feat_str.
Qed.

Lemma determined_Between_apply fuel t o lbl s root :
  attrs o !! "label" = Some lbl → scalar_str lbl = Some s →
  determined_by t o (Between_apply node_str xpath fuel t root).
Proof.
  intros Hlbl Hs. unfold Between_apply.
  apply determined_bind; [apply determined_getattr|]. intros x1 _.
  apply determined_bind; [apply determined_getattr|]. intros x _.
  apply determined_bind; [apply determined_pyadd|]. intros q1 _.
  apply determined_bind; [apply determined_call_xpath|]. intros p1 _.
  apply determined_bind; [apply determined_getattr|]. intros x2 _.
  apply determined_bind; [apply determined_getattr|]. intros x' _.
  apply determined_bind; [apply determined_pyadd|]. intros q2 _.
  apply determined_bind; [apply determined_call_xpath|]. intros p2 _.
  apply determined_bind; [by eapply determined_feat_str|]. intros f _.
  by eapply determined_pure.
Qed.

Lemma determined_apply n t o lbl s root :
  cls o ≠ Get →
  attrs o !! "label" = Some lbl → scalar_str lbl = Some s →
  determined_by t o (apply node_str xpath n t root).
Proof.
  intros Hc Hlbl Hs. destruct n as [|k]; simpl; [by eapply determined_pure|].
  exists (fst (match cls o with
               | Between => Between_apply node_str xpath k t root
               | _ => FeatureTemplate_apply node_str xpath k t root
               end (replicate t o ++ [o]))).
  intros h Hh. erewrite bind_val by (by apply class_of_run).
  assert ((replicate t o ++ [o]) !! t = Some o) as Hh0.
  { rewrite lookup_app_r by (rewrite length_replicate; lia).
    by rewrite length_replicate, Nat.sub_diag. }
  destruct (determined_FeatureTemplate_apply k t o lbl s root Hlbl Hs)
    as [r1 Hr1].
  destruct (determined_Between_apply k t o lbl s root Hlbl Hs) as [r2 Hr2].
  destruct (cls o); try done;
    by rewrite ?(Hr1 _ Hh), ?(Hr1 _ Hh0), ?(Hr2 _ Hh), ?(Hr2 _ Hh0).
Qed.

(** X12. What a template other than a [Get] wrapper emits depends on its
    own attributes only: in two heaps that hold the same object at its
    address, [apply] has the same outcome, whatever the other objects are. *)
Theorem apply_depends_on_own_object n t o lbl s root (h1 h2 : heap) :
  h1 !! t = Some o → h2 !! t = Some o →
  cls o ≠ Get →
  attrs o !! "label" = Some lbl → scalar_str lbl = Some s →
  fst (apply node_str xpath n t root h1) = fst (apply node_str xpath n t root h2).
Proof.
  intros Hh1 Hh2 Hc Hlbl Hs.
  destruct (determined_apply n t o lbl s root Hc Hlbl Hs) as [r Hr].
  by rewrite (Hr _ Hh1), (Hr _ Hh2).
Qed.

(** X13. Building further templates never changes what an existing
    template emits, as long as it is not the one a [Get] is wrapped
    around: [Left(f)], [Right(f)] and [Between(f1, f2)] copied what they
    need from their inner templates when they were built. *)
Theorem apply_unaffected_by_constructors fuel n c (h : heap) new h' t o lbl s root :
  construct fuel c h = (Val new, h') →
  h !! t = Some o → mutated_by c ≠ Some t →
  cls o ≠ Get →
  attrs o !! "label" = Some lbl → scalar_str lbl = Some s →
  fst (apply node_str xpath n t root h') = fst (apply node_str xpath n t root h).
Proof.
  intros Hrun Ht Hmut Hc Hlbl Hs.
  assert (h' !! t = Some o) as Ht'.
  { destruct (is_Get_call c) eqn:Hg.
    - destruct c as [| |f a| | |]; try done.
      apply Get_inv in Hrun as (fo & s' & xp & -> & Hf & ->).
      rewrite list_lookup_insert_ne by (simpl in Hmut; congruence).
      by apply lookup_old.
    - destruct (construct_new_object _ _ _ _ _ Hg Hrun)
        as (o' & ? & ? & ? & -> & -> & _).
      by apply lookup_old. }
  destruct (determined_apply n t o lbl s root Hc Hlbl Hs) as [r Hr].
  by rewrite (Hr _ Ht), (Hr _ Ht').
Qed.

End Locality.

Lemma apply_depends_on_own_object_witness :
  fst (apply example_str example_xpath 1 0 () example_heap)
  = fst (apply example_str example_xpath 1 0 ()
           (snd (construct 0 (CallGet 1 "word") example_heap))).
Proof.
  eapply (apply_depends_on_own_object example_str example_xpath 1 0 _
            (VStr "MENTION") "MENTION" ());
    vm_compute; first [reflexivity | discriminate].
Defined.

Lemma apply_unaffected_by_constructors_witness :
  fst (apply example_str example_xpath 1 7 ()
         (snd (construct 0 (CallGet 0 "word") example_heap2)))
  = fst (apply example_str example_xpath 1 7 () example_heap2).
Proof.
  eapply (apply_unaffected_by_constructors example_str example_xpath 0 1
            (CallGet 0 "word") example_heap2 10 _ 7 _
            (VStr "LEFT-OF-MENTION") "LEFT-OF-MENTION" ());
    vm_compute; first [reflexivity | discriminate].
Defined.

(** ** Failures of the query engine *)

Section QueryFailure.
Context {node : Type} `{Countable node} {tree : Type}.
Variable node_str : node → string.
Variable xpath : tree → string → option (list node).

(** X14. When the engine rejects the selector of a template of the default
    pipeline, [apply] raises the engine's error, whatever the label and the
    bound of the template are; nothing is emitted. *)
Theorem apply_query_failure n (h : heap) t o sel root :
  h !! t = Some o → uses_default_apply (cls o) = true →
  attrs o !! "xpath" = Some (VStr sel) → xpath root sel = None →
  apply node_str xpath (S n) t root h = (Exc XPathEvalError, h).
Proof.
  intros Ht Hc Hsel Hq. simpl.
  erewrite bind_val by (by apply class_of_run).
  assert (FeatureTemplate_apply node_str xpath n t root h
          = (Exc XPathEvalError, h)) as Hrun.
  { unfold FeatureTemplate_apply. mstep.
    erewrite bind_exc; [done|]. unfold call_xpath. by rewrite Hq. }
  destruct (cls o); try done.
Qed.

(** X15. [Between.apply] raises the engine's error when either of its two
    ancestor queries is rejected. *)
Theorem Between_apply_query_failure n (h : heap) t o a1 ax a2 root :
  h !! t = Some o → cls o = Between →
  attrs o !! "xpath1" = Some (VStr a1) → attrs o !! "xpath" = Some (VStr ax) →
  attrs o !! "xpath2" = Some (VStr a2) →
  xpath root (a1 +:+ ax) = None ∨ xpath root (a2 +:+ ax) = None →
  apply node_str xpath (S n) t root h = (Exc XPathEvalError, h).
Proof.
  intros Ht Hc H1 Hx H2 Hq. simpl.
  erewrite bind_val by (by apply class_of_run). rewrite Hc.
  unfold Between_apply. do 2 mstep. mstep_by reflexivity.
  cbv beta. rewrite ?bind_assoc.
  destruct (xpath root (a1 +:+ ax)) as [p1|] eqn:Hq1.
  - destruct Hq as [?|Hq2]; [done|].
    mstep_by ltac:(by apply call_xpath_run).
    do 2 mstep. mstep_by reflexivity. cbv beta. rewrite ?bind_assoc.
    erewrite bind_exc; [done|]. unfold call_xpath. by rewrite Hq2.
  - erewrite bind_exc; [done|]. unfold call_xpath. by rewrite Hq1.
Qed.

End QueryFailure.

Lemma apply_query_failure_witness :
  apply example_str strict_xpath 1 0 () example_heap3
  = (Exc XPathEvalError, example_heap3).
Proof.
  eapply (apply_query_failure example_str strict_xpath 0 example_heap3 0 _
            ".//node[@cid='5']/@word/@word" ());
    vm_compute; reflexivity.
Defined.

Lemma Between_apply_query_failure_witness :
  apply example_str strict_xpath 1 8 () example_heap4
  = (Exc XPathEvalError, example_heap4).
Proof.
  eapply (Between_apply_query_failure example_str strict_xpath 0 example_heap4 8 _
            ".//node[@cid='5']/@word" "/ancestor::node" ".//node[@cid='6']" ());
    first [by left | vm_compute; reflexivity].
Defined.

(** ** [Between] on two chains of a tree *)

Section Chains.
Context {node : Type} `{Countable node}.
Implicit Types (shared : gset node) (c d : list node).

Lemma scan_incl_first shared pre x rest :
  x ∈ shared → (∀ y, y ∈ pre → y ∉ shared) →
  scan_incl shared (pre ++ x :: rest) [] = pre ++ [x].
Proof.
  intros Hx. induction pre as [|y pre IH]; intros Hpre; simpl.
  - by rewrite decide_True.
  - rewrite decide_False by (apply Hpre; left).
    rewrite scan_incl_acc, IH; [done|]. intros z Hz. apply Hpre. by right.
Qed.

Lemma scan_excl_first shared pre x rest :
  x ∈ shared → (∀ y, y ∈ pre → y ∉ shared) →
  scan_excl shared (pre ++ x :: rest) [] = pre.
Proof.
  intros Hx. induction pre as [|y pre IH]; intros Hpre; simpl.
  - by rewrite decide_True.
  - rewrite decide_False by (apply Hpre; left).
    rewrite scan_excl_acc, IH; [done|]. intros z Hz. apply Hpre. by right.
Qed.

Lemma reverse_chain c (a : node) d :
  reverse (c ++ a :: d) = reverse d ++ a :: reverse c.
Proof. by rewrite reverse_app, reverse_cons, <- app_assoc. Qed.

(** The two scans on chains that share the prefix [c ++ [a]] and are
    disjoint below [a]. *)
Lemma scans_on_chains c (a : node) d1 d2 :
  Forall (λ x, x ∉ c ++ a :: d2) d1 → Forall (λ x, x ∉ c ++ a :: d1) d2 →
  let shared : gset node :=
    list_to_set (c ++ a :: d1) ∩ list_to_set (c ++ a :: d2) in
  scan_incl shared (reverse (c ++ a :: d1)) []
  ++ reverse (scan_excl shared (reverse (c ++ a :: d2)) [])
  = reverse d1 ++ a :: d2.
Proof.
  intros Hd1 Hd2 shared. rewrite Forall_forall in Hd1, Hd2.
  assert (a ∈ shared) as Ha.
  { apply elem_of_shared. split; apply elem_of_app; right; left. }
  rewrite !reverse_chain.
  assert (∀ y, y ∈ reverse d1 → y ∉ shared) as Hpre1.
  { intros y Hy [_ Hy2]%elem_of_shared. rewrite elem_of_reverse in Hy.
    by apply (Hd1 y Hy). }
  assert (∀ y, y ∈ reverse d2 → y ∉ shared) as Hpre2.
  { intros y Hy [Hy1 _]%elem_of_shared. rewrite elem_of_reverse in Hy.
    by apply (Hd2 y Hy). }
  rewrite scan_incl_first, scan_excl_first by done.
  by rewrite reverse_involutive, <- app_assoc.
Qed.

End Chains.

Section BetweenChains.
Context {node : Type} `{Countable node} {tree : Type}.
Variable node_str : node → string.
Variable xpath : tree → string → option (list node).

(** X16. When the two ancestor queries answer root-to-node chains that
    share the prefix ending in [a] and have nothing in common below it, the
    feature of [Between] is the path up the first chain to [a] and down the
    second: [reverse d1 ++ [a] ++ d2]. *)
Theorem Between_apply_lca n (h : heap) t o a1 ax a2 root c a d1 d2 lbl s :
  h !! t = Some o → cls o = Between →
  attrs o !! "xpath1" = Some (VStr a1) → attrs o !! "xpath" = Some (VStr ax) →
  attrs o !! "xpath2" = Some (VStr a2) →
  xpath root (a1 +:+ ax) = Some (c ++ a :: d1) →
  xpath root (a2 +:+ ax) = Some (c ++ a :: d2) →
  attrs o !! "label" = Some lbl → scalar_str lbl = Some s →
  Forall (λ x, x ∉ c ++ a :: d2) d1 → Forall (λ x, x ∉ c ++ a :: d1) d2 →
  apply node_str xpath (S n) t root h
  = (Val [render node_str s (reverse d1 ++ a :: d2)], h).
Proof.
  intros Ht Hc H1 Hx H2 Hq1 Hq2 Hlbl Hs Hd1 Hd2.
  erewrite apply_Between_run by done.
  by rewrite scans_on_chains.
Qed.

(** X17. On such chains, exchanging the two inner templates of [Between]
    reverses the path: the feature of [Between(f2, f1)] lists the tokens of
    the feature of [Between(f1, f2)] in the opposite order. *)
Theorem Between_swap_reverses n (h : heap) t o t' o' a1 ax a2 root c a d1 d2
    lbl s lbl' s' :
  h !! t = Some o → cls o = Between →
  attrs o !! "xpath1" = Some (VStr a1) → attrs o !! "xpath" = Some (VStr ax) →
  attrs o !! "xpath2" = Some (VStr a2) →
  attrs o !! "label" = Some lbl → scalar_str lbl = Some s →
  h !! t' = Some o' → cls o' = Between →
  attrs o' !! "xpath1" = Some (VStr a2) → attrs o' !! "xpath" = Some (VStr ax) →
  attrs o' !! "xpath2" = Some (VStr a1) →
  attrs o' !! "label" = Some lbl' → scalar_str lbl' = Some s' →
  xpath root (a1 +:+ ax) = Some (c ++ a :: d1) →
  xpath root (a2 +:+ ax) = Some (c ++ a :: d2) →
  Forall (λ x, x ∉ c ++ a :: d2) d1 → Forall (λ x, x ∉ c ++ a :: d1) d2 →
  ∃ path,
    apply node_str xpath (S n) t root h = (Val [render node_str s path], h)
    ∧ apply node_str xpath (S n) t' root h
      = (Val [render node_str s' (reverse path)], h).
Proof.
  intros Ht Hc H1 Hx H2 Hlbl Hs Ht' Hc' H1' Hx' H2' Hlbl' Hs' Hq1 Hq2 Hd1 Hd2.
  exists (reverse d1 ++ a :: d2). split.
  - erewrite apply_Between_run by done. by rewrite scans_on_chains.
  - erewrite apply_Between_run by done. rewrite scans_on_chains by done.
    by rewrite reverse_app, reverse_cons, reverse_involutive, <- app_assoc.
Qed.

End BetweenChains.

Lemma Between_apply_lca_witness :
  apply example_str example_xpath 1 8 () example_heap2
  = (Val [render example_str "BETWEEN-MENTION-MENTION"
            (reverse [12] ++ 11 :: [13; 14])%nat], example_heap2).
Proof.
  eapply (Between_apply_lca example_str example_xpath 0 example_heap2 8 _
            ".//node[@cid='5']" "/ancestor::node" ".//node[@cid='6']" ()
            [10]%nat 11%nat [12]%nat [13; 14]%nat
            (VStr "BETWEEN-MENTION-MENTION"));
    first [ vm_compute; reflexivity
          | refine (bool_decide_unpack _ _); vm_compute; exact I ].
Defined.

Lemma Between_swap_reverses_witness :
  ∃ path,
    apply example_str example_xpath 1 8 () example_heap2
    = (Val [render example_str "BETWEEN-MENTION-MENTION" path], example_heap2)
    ∧ apply example_str example_xpath 1 9 () example_heap2
      = (Val [render example_str "BETWEEN-MENTION-MENTION" (reverse path)],
         example_heap2).
Proof.
  eapply (Between_swap_reverses example_str example_xpath 0 example_heap2 8 _ 9 _
            ".//node[@cid='5']" "/ancestor::node" ".//node[@cid='6']" ()
            [10]%nat 11%nat [12]%nat [13; 14]%nat
            (VStr "BETWEEN-MENTION-MENTION") _
            (VStr "BETWEEN-MENTION-MENTION"));
    first [ vm_compute; reflexivity
          | refine (bool_decide_unpack _ _); vm_compute; exact I ].
Defined.

(** ** More on [Get] *)

Section GetBetween.
Context {node : Type} `{Countable node} {tree : Type}.
Variable node_str : node → string.
Variable xpath : tree → string → option (list node).

(** X18. [Get] around a [Between] template: the attribute step is appended
    to the ancestor suffix that both queries of [Between.apply] share, so
    the single feature is the path computed from the attribute values that
    the two extended queries answer, under the label [A-LABEL]. *)
Theorem Get_Between_projects fuel n (h : heap) b bo lbl s a1 ax a2 a root p1 p2 :
  h !! b = Some bo → cls bo = Between →
  attrs bo !! "label" = Some lbl → scalar_str lbl = Some s →
  attrs bo !! "xpath" = Some (VStr ax) →
  attrs bo !! "xpath1" = Some (VStr a1) → attrs bo !! "xpath2" = Some (VStr a2) →
  xpath root (a1 +:+ ((ax +:+ "/@") +:+ a)) = Some p1 →
  xpath root (a2 +:+ ((ax +:+ "/@") +:+ a)) = Some p2 →
  ∃ h',
    (g ← construct fuel (CallGet b a); apply node_str xpath (S (S n)) g root) h
    = (Val [render node_str (upper a +:+ "-" +:+ s)
              (scan_incl (list_to_set p1 ∩ list_to_set p2) (reverse p1) []
               ++ reverse (scan_excl (list_to_set p1 ∩ list_to_set p2)
                             (reverse p2) []))], h').
Proof.
  intros Hb Hc Hlbl Hs Hx H1 H2 Hq1 Hq2.
  assert (b < List.length h)%nat as Hlt by (by eapply lookup_lt_Some).
  eexists. simpl construct. erewrite bind_val by (by eapply new_Get_run).
  set (o' := Obj (cls bo) _). set (self := Obj Get _).
  destruct (heap_after_Get h b o' self Hlt) as (Hb' & Hself & _).
  erewrite apply_Get_run; [|exact Hself|done|by simplify_map_eq].
  eapply apply_Between_run
    with (a1 := a1) (a2 := a2) (ax := (ax +:+ "/@") +:+ a)
         (lbl := VStr (upper a +:+ "-" +:+ s));
    [exact Hb'|done| | | |exact Hq1|exact Hq2| |done]; subst o'; simpl.
  - by rewrite !lookup_insert_ne.
  - by rewrite lookup_insert_eq.
  - by rewrite !lookup_insert_ne.
  - by rewrite lookup_insert_ne, lookup_insert_eq.
Qed.

End GetBetween.

Lemma Get_Between_projects_witness :
  ∃ h',
    (g ← construct 0 (CallGet 8 "word");
     apply example_str strict_xpath 2 g ()) example_heap2
    = (Val [render example_str (upper "word" +:+ "-" +:+ "BETWEEN-MENTION-MENTION")
              (scan_incl (list_to_set [40; 41; 42]%nat
                          ∩ list_to_set [40; 41; 43; 44]%nat)
                 (reverse [40; 41; 42]%nat) []
               ++ reverse (scan_excl (list_to_set [40; 41; 42]%nat
                                      ∩ list_to_set [40; 41; 43; 44]%nat)
                             (reverse [40; 41; 43; 44]%nat) []))], h').
Proof.
  eapply (Get_Between_projects example_str strict_xpath 0 0 example_heap2 8 _
            (VStr "BETWEEN-MENTION-MENTION") "BETWEEN-MENTION-MENTION"
            ".//node[@cid='5']" "/ancestor::node" ".//node[@cid='6']" "word" ());
    vm_compute; reflexivity.
Defined.

(** X19. A [Get] leaks into the templates built afterwards from the same
    inner template: [Left(f)] built after [Get(f, a)] carries the label
    [LEFT-OF-A-LABEL] and a selector through [/@a], whereas [Left(f)] built
    before it keeps [LEFT-OF-LABEL] and the plain selector. *)
Theorem Get_then_Left_differs fuel (h : heap) f fo lbl s xp a :
  h !! f = Some fo →
  attrs fo !! "label" = Some lbl → scalar_str lbl = Some s →
  attrs fo !! "xpath" = Some (VStr xp) →
  (∃ h',
     (_ ← construct fuel (CallGet f a);
      l ← construct fuel (CallLeft f);
      lb ← getattr l "label"; sel ← getattr l "xpath"; mret (lb, sel)) h
     = (Val (VStr ("LEFT-OF-" +:+ (upper a +:+ "-" +:+ s)),
             VStr (((xp +:+ "/@") +:+ a) +:+ "/preceding-sibling::node")), h'))
  ∧ (∃ h',
       (l ← construct fuel (CallLeft f);
        _ ← construct fuel (CallGet f a);
        lb ← getattr l "label"; sel ← getattr l "xpath"; mret (lb, sel)) h
       = (Val (VStr ("LEFT-OF-" +:+ s),
               VStr (xp +:+ "/preceding-sibling::node")), h')).
Proof.
  intros Hf Hlbl Hs Hxp.
  assert (f < List.length h)%nat as Hlt by (by eapply lookup_lt_Some).
  split; eexists; simpl construct.
  - erewrite bind_val by (by eapply new_Get_run).
    set (o' := Obj (cls fo) _). set (self := Obj Get _).
    destruct (heap_after_Get h f o' self Hlt) as (Hf' & _ & _).
    erewrite bind_val.
    2:{ eapply new_Left_run with (lbl := VStr (upper a +:+ "-" +:+ s));
          [exact Hf'| |done|]; subst o'; simpl.
        - by rewrite lookup_insert_ne, lookup_insert_eq.
        - by rewrite lookup_insert_eq. }
    erewrite bind_val
      by (eapply getattr_some; [apply lookup_new|by simplify_map_eq]).
    erewrite bind_val
      by (eapply getattr_some; [apply lookup_new|by simplify_map_eq]).
    reflexivity.
  - erewrite bind_val by (by eapply new_Left_run).
    set (left := Obj Left _).
    erewrite bind_val by (eapply new_Get_run; [by apply lookup_old|done..]).
    set (o' := Obj (cls fo) _). set (self := Obj Get _).
    assert (<[f:=o']> ((h ++ [left]) ++ [self]) !! List.length h = Some left)
      as Hleft.
    { rewrite list_lookup_insert_ne by lia.
      apply lookup_old, lookup_new. }
    erewrite bind_val
      by (eapply getattr_some; [exact Hleft|by simplify_map_eq]).
    erewrite bind_val
      by (eapply getattr_some; [exact Hleft|by simplify_map_eq]).
    reflexivity.
Qed.

Lemma Get_then_Left_differs_witness :
  (∃ h',
     (_ ← construct 0 (CallGet 0 "word");
      l ← construct 0 (CallLeft 0);
      lb ← getattr l "label"; sel ← getattr l "xpath"; mret (lb, sel)) example_heap
     = (Val (VStr ("LEFT-OF-" +:+ (upper "word" +:+ "-" +:+ "MENTION")),
             VStr (((".//node[@cid='5']" +:+ "/@") +:+ "word")
                   +:+ "/preceding-sibling::node")), h'))
  ∧ (∃ h',
       (l ← construct 0 (CallLeft 0);
        _ ← construct 0 (CallGet 0 "word");
        lb ← getattr l "label"; sel ← getattr l "xpath"; mret (lb, sel)) example_heap
       = (Val (VStr ("LEFT-OF-" +:+ "MENTION"),
               VStr (".//node[@cid='5']" +:+ "/preceding-sibling::node")), h')).
Proof.
  eapply (Get_then_Left_differs 0 example_heap 0 _ (VStr "MENTION") "MENTION"
            ".//node[@cid='5']" "word");
    vm_compute; reflexivity.
Defined.

(** ** [Mention] and [__repr__] *)

(** X20. The mention identifier goes through [str]: an integer identifier
    and the string of its decimal digits build the same template. *)
Theorem Mention_cid_int_or_str fuel (z : Z) (h : heap) :
  construct fuel (CallMention (VInt z)) h
  = construct fuel (CallMention (VStr (pretty z))) h.
Proof.
  simpl. erewrite (new_Mention_run fuel h (VInt z)) by reflexivity.
  by erewrite (new_Mention_run fuel h (VStr (pretty z))) by reflexivity.
Qed.

(** X21. Once [attrib] has been assigned on a template whose label,
    selector and bound are printable, [__repr__] returns
    [<LABEL, XPath='SELECTOR', attrib=ATTRIB, subsets=BOUND>]. *)
Theorem repr_after_attrib k (h : heap) t o lbl xp ss v s1 s2 s3 s4 :
  h !! t = Some o →
  attrs o !! "label" = Some lbl → scalar_str lbl = Some s1 →
  attrs o !! "xpath" = Some xp → scalar_str xp = Some s2 →
  attrs o !! "subsets" = Some ss → scalar_str ss = Some s4 →
  scalar_str v = Some s3 →
  (setattr t "attrib" v;; FeatureTemplate_repr (S k) t) h
  = (Val ("<" +:+ s1 +:+ ", XPath='" +:+ s2 +:+ "', attrib=" +:+ s3
            +:+ ", subsets=" +:+ s4 +:+ ">"),
     <[t := Obj (cls o) (<["attrib" := v]> (attrs o))]> h).
Proof.
  intros Ht Hlbl Hs1 Hxp Hs2 Hss Hs4 Hs3.
  assert (t < List.length h)%nat as Hlt by (by eapply lookup_lt_Some).
  erewrite bind_val by (by apply setattr_run).
  set (o' := Obj (cls o) _).
  assert (<[t:=o']> h !! t = Some o') as Ht' by (by apply list_lookup_insert_eq).
  simpl.
  do 2 (erewrite bind_val
          by (eapply getattr_some; [exact Ht'|];
              subst o'; simpl; by rewrite lookup_insert_ne)).
  erewrite bind_val
    by (eapply getattr_some; [exact Ht'|]; subst o'; simpl;
        by rewrite lookup_insert_eq).
  erewrite bind_val
    by (eapply getattr_some; [exact Ht'|];
        subst o'; simpl; by rewrite lookup_insert_ne).
  fold (pystr k lbl). fold (pystr k xp). fold (pystr k v). fold (pystr k ss).
  do 4 (erewrite bind_val by (by eapply pystr_scalar)).
  reflexivity.
Qed.

Lemma repr_after_attrib_witness :
  (setattr 0 "attrib" (VStr "word");; FeatureTemplate_repr 1 0) example_heap
  = (Val "<MENTION, XPath='.//node[@cid='5']', attrib=word, subsets=100>",
     <[0%nat := Obj Mention
                  (<["attrib" := VStr "word"]>
                   (<["subsets" := VInt 100]>
                    (<["xpath" := VStr ".//node[@cid='5']"]>
                     (<["label" := VStr "MENTION"]> ∅))))]> example_heap).
Proof.
  refine (eq_trans
            (repr_after_attrib 0 example_heap 0
               (Obj Mention (<["subsets" := VInt 100]>
                             (<["xpath" := VStr ".//node[@cid='5']"]>
                              (<["label" := VStr "MENTION"]> ∅))))
               (VStr "MENTION") (VStr ".//node[@cid='5']") (VInt 100)
               (VStr "word") "MENTION" ".//node[@cid='5']" "word" "100"
               _ _ _ _ _ _ _ _) _);
    vm_compute; reflexivity.
Defined.
